(** * Completor: well-construction engine, leaf components

    A shallow embedding of [completor/create_wells.py] and
    [completor/input_validation.py].

    - pandas tables are lists of row records, in row order;
    - Python [float] values are IEEE 754 binary64 numbers.  The code only
      compares them, so they are modelled by [spec_float] with the
      comparisons [SFltb] and [SFeqb], which are exact (NaN included);
    - [raise] is modelled by the result type [res]. *)

From Stdlib Require Import ZArith Ascii String SpecFloat.
From stdpp Require Import base list strings.

Open Scope string_scope.
Open Scope list_scope.

(** ** Exceptions and results *)

(** The exceptions the two modules raise.  [SystemExit] is what
    [raise abort(message)] raises; it carries the logged message.
    [IndexError] is pandas' out-of-range [.iloc]. *)
Inductive exn : Type :=
| ValueError (msg : string)
| SystemExit (msg : string)
| IndexError.

Inductive res (A : Type) : Type :=
| Ret (a : A)
| Raise (e : exn).
Arguments Ret {A} a.
Arguments Raise {A} e.

#[global] Instance res_ret : MRet res := fun A a => Ret a.
#[global] Instance res_bind : MBind res := fun A B k m =>
  match m with
  | Ret a => k a
  | Raise e => Raise e
  end.

(** ** Python strings *)

(** [sub in s] on [str]: [sub] occurs in [s] as a contiguous substring. *)
Fixpoint str_in (sub s : string) : bool :=
  String.prefix sub s ||
  match s with
  | EmptyString => false
  | String _ s' => str_in sub s'
  end.

(** [str.lower]: the letters A-Z are mapped to a-z.  A string is its
    UTF-8 text; lowering a letter outside ASCII never yields a run of
    ASCII letters, so the keyword tests of [_method] see no difference. *)
Definition lower_ascii (c : ascii) : ascii :=
  let n := nat_of_ascii c in
  if (65 <=? n)%nat && (n <=? 90)%nat then ascii_of_nat (n + 32) else c.

Fixpoint lower (s : string) : string :=
  match s with
  | EmptyString => EmptyString
  | String c s' => String (lower_ascii c) (lower s')
  end.

(** ** Python floats *)

Definition float := spec_float.

(** The literal [0.0]. *)
Definition f0 : float := S754_zero false.

(** [a < b], [a > b], [a == b] and [a != b] on floats. *)
Definition flt (a b : float) : bool := SFltb a b.
Definition fgt (a b : float) : bool := SFltb b a.
Definition feq (a b : float) : bool := SFeqb a b.
Definition fne (a b : float) : bool := negb (SFeqb a b).

(** ** SegmentMethodResolver: [CreateWells._method] *)

(** The members of [completor.constants.SegmentCreationMethod] that
    [_method] returns. *)
Inductive SegmentCreationMethod : Type := FIX | CELLS | USER | WELSEGS.

(** The value of [case.segment_length]: a float, a string, or any other
    object, of which only the text that an f-string shows matters. *)
Inductive pyval : Type :=
| PyFloat (x : float)
| PyStr (s : string)
| PyOther (shown : string).

Section Method.

(** [str(x)] of a float, as an f-string inserts it (a Python built-in). *)
Variable float_str : float -> string.

Definition unrecognized_method (shown : string) : string :=
  "Unrecognized method '" +:+ shown +:+
  "' in SEGMENTLENGTH keyword. The value should be one of: " +:+
  "'WELSEGS', 'CELLS', 'USER', or a number: -1 for 'USER', " +:+
  "0 for 'CELLS', positive number for 'FIX'.".

Definition unrecognized_type (shown : string) : string :=
  "Unrecognized type of '" +:+ shown +:+
  "' in SEGMENTLENGTH keyword. The keyword must either be float or string.".

Definition _method (segment_length : pyval) : res SegmentCreationMethod :=
  match segment_length with
  | PyFloat x =>
      if fgt x f0 then Ret FIX
      else if feq x f0 then Ret CELLS
      else if flt x f0 then Ret USER
      else Raise (ValueError (unrecognized_method (float_str x)))
  | PyStr s =>
      if str_in "welsegs" (lower s) || str_in "infill" (lower s) then Ret WELSEGS
      else if str_in "cell" (lower s) then Ret CELLS
      else if str_in "user" (lower s) then Ret USER
      else Raise (ValueError (unrecognized_method s))
  | PyOther shown => Raise (ValueError (unrecognized_type shown))
  end.

End Method.

(** ** The completion table *)

(** One row of the COMPLETION table, with the columns and types of
    [set_format_completion]. *)
Record completion_row : Type := mk_completion_row {
  WELL : string;
  BRANCH : Z;
  STARTMD : float;
  ENDMD : float;
  INNER_ID : float;
  OUTER_ID : float;
  ROUGHNESS : float;
  ANNULUS : string;
  NVALVEPERJOINT : float;
  DEVICETYPE : string;
  DEVICENUMBER : Z
}.

Abbreviation completion_table := (list completion_row).

(** [df[name]]: a column of a table, in row order. *)
Definition column {R A : Type} (get : R -> A) (df : list R) : list A := get <$> df.

(** [df[df["WELL"] == well_name]]: boolean-mask row selection. *)
Definition rows_of_well (well_name : string) (df : completion_table) : completion_table :=
  filter (fun r => WELL r = well_name) df.


(** [Series.isin(values).any()]. *)
Definition isin_any (values : list string) (series : list string) : bool :=
  existsb (fun v => bool_decide (v ∈ values)) series.

(** [Series.unique()]: the distinct values in order of first appearance. *)
Fixpoint unique_acc {A : Type} `{EqDecision A} (seen l : list A) : list A :=
  match l with
  | [] => []
  | x :: l' =>
      if bool_decide (x ∈ seen) then unique_acc seen l'
      else x :: unique_acc (x :: seen) l'
  end.

Definition unique {A : Type} `{EqDecision A} (l : list A) : list A := unique_acc [] l.

(** ** ActiveWellFilter: [CreateWells._active_wells] *)

(** [list.remove(x)]: drops the first occurrence, [ValueError] when there
    is none. *)
Fixpoint list_remove (x : string) (l : list string) : res (list string) :=
  match l with
  | [] => Raise (ValueError "list.remove(x): x not in list")
  | y :: l' =>
      if bool_decide (y = x) then Ret l'
      else l'' ← list_remove x l'; Ret (y :: l'')
  end.

Definition active_devices : list string :=
  ["AICD"; "AICV"; "DAR"; "ICD"; "VALVE"; "ICV"].

Definition gp_check (table : completion_table) (well_name : string) : bool :=
  let ann_series := column ANNULUS (rows_of_well well_name table) in
  negb (isin_any ["OA"] ann_series).

Definition perf_check (table : completion_table) (well_name : string) : bool :=
  let type_series := column DEVICETYPE (rows_of_well well_name table) in
  negb (isin_any active_devices type_series).

(** The loop over [active_wells.copy()].  [todo] is what is left of the
    copy, [active_wells] the list being updated.  The result pairs the
    returned array with whether the warning was logged. *)
Fixpoint active_wells_loop (table : completion_table) (gp_perf_devicelayer : bool)
    (todo active_wells : list string) : res (list string * bool) :=
  match todo with
  | [] => Ret (active_wells, false)
  | well_name :: todo' =>
      active_wells' ←
        (if gp_check table well_name && perf_check table well_name
            && negb gp_perf_devicelayer
         then list_remove well_name active_wells
         else Ret active_wells);
      if bool_decide (active_wells' = []) then Ret ([], true)
      else active_wells_loop table gp_perf_devicelayer todo' active_wells'
  end.

Section ActiveWells.

(** [list(set(names))]: the order in which a Python set of strings is
    iterated depends on the strings' hashes, which differ from process
    to process; it is a parameter here.  What a set guarantees is
    [set_order], below. *)
Variable list_of_set : list string -> list string.

Definition _active_wells (table : completion_table) (gp_perf_devicelayer : bool)
    : res (list string * bool) :=
  let active_wells := list_of_set (column WELL table) in
  active_wells_loop table gp_perf_devicelayer active_wells active_wells.

End ActiveWells.

(** Each element once, and nothing else. *)
Definition set_order (list_of_set : list string -> list string) : Prop :=
  forall l, NoDup (list_of_set l) /\ forall x, x ∈ list_of_set l <-> x ∈ l.

(** ** Packer defaults: [set_default_packer_section] *)

(** [np.where(cond, x, col)] with a scalar [x]. *)
Definition np_where {A : Type} (cond : list bool) (x : A) (col : list A) : list A :=
  zip_with (fun (c : bool) y => if c then x else y) cond col.

(** [col == "PA"], elementwise. *)
Definition eq_str (col : list string) (s : string) : list bool :=
  (fun a => bool_decide (a = s)) <$> col.

(** [df[name] = values]: column assignment, row by row. *)
Definition assign {R A : Type} (set : A -> R -> R) (values : list A) (df : list R) : list R :=
  zip_with (fun r v => set v r) df values.

Definition set_INNER_ID (v : float) (r : completion_row) : completion_row :=
  mk_completion_row (WELL r) (BRANCH r) (STARTMD r) (ENDMD r) v (OUTER_ID r)
    (ROUGHNESS r) (ANNULUS r) (NVALVEPERJOINT r) (DEVICETYPE r) (DEVICENUMBER r).
Definition set_OUTER_ID (v : float) (r : completion_row) : completion_row :=
  mk_completion_row (WELL r) (BRANCH r) (STARTMD r) (ENDMD r) (INNER_ID r) v
    (ROUGHNESS r) (ANNULUS r) (NVALVEPERJOINT r) (DEVICETYPE r) (DEVICENUMBER r).
Definition set_ROUGHNESS (v : float) (r : completion_row) : completion_row :=
  mk_completion_row (WELL r) (BRANCH r) (STARTMD r) (ENDMD r) (INNER_ID r) (OUTER_ID r)
    v (ANNULUS r) (NVALVEPERJOINT r) (DEVICETYPE r) (DEVICENUMBER r).
Definition set_NVALVEPERJOINT (v : float) (r : completion_row) : completion_row :=
  mk_completion_row (WELL r) (BRANCH r) (STARTMD r) (ENDMD r) (INNER_ID r) (OUTER_ID r)
    (ROUGHNESS r) (ANNULUS r) v (DEVICETYPE r) (DEVICENUMBER r).
Definition set_DEVICETYPE (v : string) (r : completion_row) : completion_row :=
  mk_completion_row (WELL r) (BRANCH r) (STARTMD r) (ENDMD r) (INNER_ID r) (OUTER_ID r)
    (ROUGHNESS r) (ANNULUS r) (NVALVEPERJOINT r) v (DEVICENUMBER r).
Definition set_DEVICENUMBER (v : Z) (r : completion_row) : completion_row :=
  mk_completion_row (WELL r) (BRANCH r) (STARTMD r) (ENDMD r) (INNER_ID r) (OUTER_ID r)
    (ROUGHNESS r) (ANNULUS r) (NVALVEPERJOINT r) (DEVICETYPE r) v.

Definition set_default_packer_section (df_comp : completion_table) : completion_table :=
  let df_comp := assign set_INNER_ID
    (np_where (eq_str (column ANNULUS df_comp) "PA") f0 (column INNER_ID df_comp)) df_comp in
  let df_comp := assign set_OUTER_ID
    (np_where (eq_str (column ANNULUS df_comp) "PA") f0 (column OUTER_ID df_comp)) df_comp in
  let df_comp := assign set_ROUGHNESS
    (np_where (eq_str (column ANNULUS df_comp) "PA") f0 (column ROUGHNESS df_comp)) df_comp in
  let df_comp := assign set_NVALVEPERJOINT
    (np_where (eq_str (column ANNULUS df_comp) "PA") f0 (column NVALVEPERJOINT df_comp)) df_comp in
  let df_comp := assign set_DEVICETYPE
    (np_where (eq_str (column ANNULUS df_comp) "PA") "PERF" (column DEVICETYPE df_comp)) df_comp in
  let df_comp := assign set_DEVICENUMBER
    (np_where (eq_str (column ANNULUS df_comp) "PA") 0%Z (column DEVICENUMBER df_comp)) df_comp in
  df_comp.

(** ** Validation of the completion table: [assess_completion] *)

(** [series.iloc[idx]] for [idx >= 0]. *)
Definition iloc {A : Type} (series : list A) (idx : nat) : res A :=
  match series !! idx with
  | Some v => Ret v
  | None => Raise IndexError
  end.

(** [x not in values]. *)
Definition not_in (x : string) (values : list string) : bool :=
  negb (bool_decide (x ∈ values)).

(** A [for] loop whose body may raise. *)
Fixpoint for_each {A : Type} (l : list A) (body : A -> res unit) : res unit :=
  match l with
  | [] => Ret tt
  | x :: l' => body x;; for_each l' body
  end.

Definition valid_devices : list string :=
  ["PERF"; "AICD"; "ICD"; "VALVE"; "DAR"; "AICV"; "ICV"].

Section Validation.

Variable float_str : float -> string.

(** The source text of [_check_for_errors] ends with the header of its
    last test, [if ANNULUS not in ["GP", "OA", "PA"]:]; what that branch
    does with the annulus value is a parameter. *)
Variable invalid_annulus : string -> res unit.

Definition incomplete_msg (well_name : string) (prev_end start : float) : string :=
  "Incomplete completion description in well " +:+ well_name +:+
  " from depth " +:+ float_str prev_end +:+ " to depth " +:+ float_str start.

Definition overlapping_msg (well_name : string) (prev_end start : float) : string :=
  "Overlapping completion description in well " +:+ well_name +:+
  " from depth " +:+ float_str prev_end +:+ " to depth " +:+ float_str start.

Definition invalid_device_msg (devicetype : string) : string :=
  devicetype +:+ " not a valid device type. " +:+
  "Valid types are PERF, AICD, ICD, VALVE, DAR, AICV, and ICV.".

Definition _check_for_errors (df_comp : completion_table) (well_name : string)
    (idx : nat) : res unit :=
  annulus ← iloc (column ANNULUS df_comp) idx;
  startmd ← iloc (column STARTMD df_comp) idx;
  endmd ← iloc (column ENDMD df_comp) idx;
  devicetype ← iloc (column DEVICETYPE df_comp) idx;
  (if bool_decide (annulus = "PA") && fne startmd endmd
   then Raise (SystemExit "Packer segments must not have length")
   else Ret tt);;
  (if negb (bool_decide (annulus = "PA")) && negb (bool_decide (devicetype = "ICV"))
      && feq startmd endmd
   then Raise (SystemExit "Non packer segments must have length")
   else Ret tt);;
  (if (0 <? idx)%nat then
     prev_end ← iloc (column ENDMD df_comp) (idx - 1);
     (if fgt startmd prev_end
      then Raise (SystemExit (incomplete_msg well_name prev_end startmd))
      else Ret tt);;
     (if flt startmd prev_end
      then Raise (SystemExit (overlapping_msg well_name prev_end startmd))
      else Ret tt)
   else Ret tt);;
  (if not_in devicetype valid_devices
   then Raise (SystemExit (invalid_device_msg devicetype))
   else Ret tt);;
  (if not_in annulus ["GP"; "OA"; "PA"]
   then invalid_annulus annulus
   else Ret tt).

(** The innermost loop of [assess_completion]: every row of one
    (well, branch) group is checked, in row order. *)
Definition check_group (df_comp : completion_table) (well_name : string) : res unit :=
  let nrow := length df_comp in
  for_each (seq 0 nrow) (fun idx => _check_for_errors df_comp well_name idx).


End Validation.

(** ** WellDataSelector: [CreateWells.select_well] *)

(** A frame with its index: each row carries its label. *)
Abbreviation frame R := (list (nat * R)).

Section SelectWell.

(** The columns of COMPSEGS and COMPDAT other than the ones [select_well]
    names, and the two WELSEGS records, are kept abstract. *)
Context {CompsegsData CompdatData WelsegsHeader WelsegsContent Other : Type}.

(** A row of [schedule.get_compsegs(well, lateral)]. *)
Record compsegs_row : Type := mk_compsegs_row {
  cs_I : Z; cs_J : Z; cs_K : Z;
  cs_STARTMD : float;
  cs_ENDMD : float;
  cs_data : CompsegsData
}.

(** A row of [schedule.get_compdat(well)]. *)
Record compdat_row : Type := mk_compdat_row {
  cd_WELL : string;
  cd_I : Z; cd_J : Z; cd_K : Z;
  cd_data : CompdatData
}.

(** A row of the merged frame, and of [df_reservoir] once WELL is
    dropped ([r_WELL = None]). *)
Record reservoir_row : Type := mk_reservoir_row {
  r_I : Z; r_J : Z; r_K : Z;
  r_STARTMD : float;
  r_ENDMD : float;
  r_compsegs : CompsegsData;
  r_WELL : option string;
  r_compdat : CompdatData
}.

(** A fresh [RangeIndex]: labels 0, 1, 2, ... *)
Definition range_index {R : Type} (rows : list R) : frame R :=
  imap (fun i r => (i, r)) rows.

Definition same_ijk (l : compsegs_row) (r : compdat_row) : bool :=
  bool_decide (cs_I l = cd_I r) && bool_decide (cs_J l = cd_J r)
  && bool_decide (cs_K l = cd_K r).

Definition merged (l : compsegs_row) (r : compdat_row) : reservoir_row :=
  mk_reservoir_row (cs_I l) (cs_J l) (cs_K l) (cs_STARTMD l) (cs_ENDMD l)
    (cs_data l) (Some (cd_WELL r)) (cd_data r).

(** [pd.merge(left, right, how="inner", on=["I", "J", "K"])]: the pairs
    of rows with equal keys, in the order of the left rows and, for one
    left row, of the right rows. *)
Definition merge_inner (left : list compsegs_row) (right : list compdat_row)
    : frame reservoir_row :=
  range_index
    (l ← left; r ← filter (fun r => same_ijk l r = true) right; [merged l r]).

(** [df.drop(["WELL"], axis=1)]. *)
Definition drop_WELL (df : frame reservoir_row) : frame reservoir_row :=
  (fun '(i, r) =>
     (i, mk_reservoir_row (r_I r) (r_J r) (r_K r) (r_STARTMD r) (r_ENDMD r)
           (r_compsegs r) None (r_compdat r))) <$> df.

(** Two floats name the same key for pandas when they are equal, or are
    both NaN. *)
Definition same_float_key (a b : float) : bool :=
  feq a b ||
  match a, b with
  | S754_nan, S754_nan => true
  | _, _ => false
  end.

(** [df.drop_duplicates(subset=key, keep="last")]: a row stays when no
    later row has its key.  Labels are kept. *)
Fixpoint drop_duplicates_last {R K : Type} (same : K -> K -> bool) (key : R -> K)
    (df : frame R) : frame R :=
  match df with
  | [] => []
  | (i, r) :: df' =>
      if existsb (fun '(_, r') => same (key r) (key r')) df'
      then drop_duplicates_last same key df'
      else (i, r) :: drop_duplicates_last same key df'
  end.

(** [df.reset_index()]: the old labels become the column [index], the
    rows are labelled afresh. *)
Definition reset_index {R : Type} (df : frame R) : frame (nat * R) :=
  range_index df.

(** The collaborators: [case.get_completion] and the schedule object. *)
Record WellSchedule : Type := mk_WellSchedule {
  get_welsegs : string -> Z -> WelsegsHeader * WelsegsContent;
  get_compsegs : string -> Z -> list compsegs_row;
  get_compdat : string -> list compdat_row
}.

(** The attributes of a [CreateWells] object that [select_well] reads or
    writes; [other] stands for the rest. *)
Record CreateWells : Type := mk_CreateWells {
  well_name : option string;
  df_completion : completion_table;
  df_welsegs_header : option WelsegsHeader;
  df_welsegs_content : option WelsegsContent;
  df_reservoir : frame (nat * reservoir_row);
  other : Other
}.

Variable get_completion : string -> Z -> completion_table.

Definition select_well (self : CreateWells) (schedule : WellSchedule) (lateral : Z)
    : res CreateWells :=
  match well_name self with
  | None => Raise (ValueError "No well name given")
  | Some name =>
      let df_completion := get_completion name lateral in
      let '(header, content) := get_welsegs schedule name lateral in
      let df_compsegs := get_compsegs schedule name lateral in
      let df_compdat := get_compdat schedule name in
      let df_reservoir := merge_inner df_compsegs df_compdat in
      let df_reservoir := drop_WELL df_reservoir in
      let df_reservoir := drop_duplicates_last same_float_key r_STARTMD df_reservoir in
      let df_reservoir := reset_index df_reservoir in
      Ret (mk_CreateWells (Some name) df_completion (Some header) (Some content)
             df_reservoir (other self))
  end.

End SelectWell.

(** ** Auxiliary definitions and example data *)

(** The test under which the loop of [_active_wells] removes a well. *)
Definition deactivated (table : completion_table) (gp_perf_devicelayer : bool)
    (well_name : string) : bool :=
  gp_check table well_name && perf_check table well_name && negb gp_perf_devicelayer.

(** Encounter order: what [Series.unique()] gives, less the removed wells. *)
Definition encounter_order (table : completion_table) (gp_perf_devicelayer : bool)
    : list string :=
  filter (fun w => deactivated table gp_perf_devicelayer w = false)
    (unique (column WELL table)).

(** One admissible iteration order of a set: the reverse of the order of
    first appearance. *)
Definition reverse_unique (l : list string) : list string := reverse (unique l).

(** The binary64 number of an integer of magnitude below 2^53, as
    [float(z)] gives it. *)
Definition float_of_Z (z : Z) : float := binary_normalize 53 1024 z 0 false.

(** A rendering of floats for the examples, which shows the class of the
    number only. *)
Definition float_class_str (x : float) : string :=
  match x with
  | S754_nan => "nan"
  | S754_infinity false => "inf"
  | S754_infinity true => "-inf"
  | S754_zero false => "0.0"
  | S754_zero true => "-0.0"
  | S754_finite false _ _ => "+finite"
  | S754_finite true _ _ => "-finite"
  end.

(** A body for the last branch of [_check_for_errors], for the examples. *)
Definition invalid_annulus_abort (annulus : string) : res unit :=
  Raise (SystemExit (annulus +:+ " not a valid annulus type.")).

(** A completion row with tubing data that the examples do not look at. *)
Definition interval (well : string) (branch : Z) (startmd endmd : Z)
    (annulus devicetype : string) : completion_row :=
  mk_completion_row well branch (float_of_Z startmd) (float_of_Z endmd)
    (float_of_Z 1) (float_of_Z 2) (float_of_Z 1) annulus (float_of_Z 1) devicetype 1.

(** A gravel-packed, perforated well with one packer. *)
Definition gravel_pack_with_packer : completion_table :=
  [ interval "A" 1 0 100 "GP" "PERF";
    interval "A" 1 100 100 "PA" "PERF";
    interval "A" 1 100 200 "GP" "PERF" ].

(** Two open-annulus wells, B before A. *)
Definition two_wells : completion_table :=
  [ interval "B" 1 0 100 "OA" "ICD";
    interval "A" 1 0 100 "OA" "ICD" ].

(** The exclusion rule with the gravel-pack test read as: every interval
    of the well has annulus GP. *)
Definition excluded_iff_all_gravel_pack (list_of_set : list string -> list string)
    (table : completion_table) (gp_perf_devicelayer : bool) : Prop :=
  forall wells warned,
    _active_wells list_of_set table gp_perf_devicelayer = Ret (wells, warned) ->
    forall w, w ∈ column WELL table ->
      (w ∉ wells <->
       (forall r, r ∈ table -> WELL r = w -> ANNULUS r = "GP")
       /\ (forall r, r ∈ table -> WELL r = w -> DEVICETYPE r ∉ active_devices)
       /\ gp_perf_devicelayer = false).

(** The output read as: the wells in encounter order. *)
Definition output_in_encounter_order (list_of_set : list string -> list string)
    (table : completion_table) (gp_perf_devicelayer : bool) : Prop :=
  forall wells warned,
    _active_wells list_of_set table gp_perf_devicelayer = Ret (wells, warned) ->
    wells = encounter_order table gp_perf_devicelayer.

(** What [set_default_packer_section] makes of one row. *)
Definition packer_defaults (r : completion_row) : completion_row :=
  if bool_decide (ANNULUS r = "PA")
  then mk_completion_row (WELL r) (BRANCH r) (STARTMD r) (ENDMD r) f0 f0 f0
         (ANNULUS r) f0 "PERF" 0
  else r.

(** A schedule in which COMPSEGS lists the cell (1, 1, 1) twice, over two
    depth ranges, and COMPDAT lists it once. *)
Definition cell_twice : @WellSchedule unit unit unit unit :=
  mk_WellSchedule
    (fun _ _ => (tt, tt))
    (fun _ _ => [ mk_compsegs_row 1 1 1 (float_of_Z 0) (float_of_Z 10) tt;
                  mk_compsegs_row 1 1 1 (float_of_Z 10) (float_of_Z 20) tt ])
    (fun _ => [ mk_compdat_row "A" 1 1 1 tt ]).

(** A fresh engine object, as [__init__] leaves the attributes modelled
    here, and one on which [update] has set the well name. *)
Definition fresh_engine : @CreateWells unit unit unit unit unit :=
  mk_CreateWells None [] None None [] tt.

Definition engine_on (name : string) : @CreateWells unit unit unit unit unit :=
  mk_CreateWells (Some name) [] None None [] tt.

(** [drop_duplicates] on the grid indices, for comparison. *)
Definition ijk {CompsegsData CompdatData : Type}
    (r : @reservoir_row CompsegsData CompdatData) : Z * Z * Z :=
  (r_I r, r_J r, r_K r).

Definition same_ijk_key (a b : Z * Z * Z) : bool := bool_decide (a = b).

(** The two length rules of [_check_for_errors], for one row. *)
Definition lengths_ok (r : completion_row) : Prop :=
  (ANNULUS r = "PA" -> feq (STARTMD r) (ENDMD r) = true) /\
  (ANNULUS r <> "PA" -> DEVICETYPE r <> "ICV" -> feq (STARTMD r) (ENDMD r) = false).

(** Acceptance read as: packers have no length and every other interval
    has positive length. *)
Definition accepted_only_if_positive_length (float_str : float -> string)
    (invalid_annulus : string -> res unit) (df : completion_table) (well : string)
    : Prop :=
  check_group float_str invalid_annulus df well = Ret tt ->
  forall r, r ∈ df ->
    (ANNULUS r = "PA" -> feq (STARTMD r) (ENDMD r) = true) /\
    (ANNULUS r <> "PA" -> flt (STARTMD r) (ENDMD r) = true).

(** An ICV at a point: an open-annulus interval from 100 to 100. *)
Definition icv_point : completion_table :=
  [ interval "A" 1 0 100 "OA" "PERF";
    interval "A" 1 100 100 "OA" "ICV";
    interval "A" 1 100 200 "OA" "PERF" ].

(** A packer with length, at two different depths. *)
Definition long_packer (startmd endmd : Z) : completion_table :=
  [ interval "A" 1 startmd endmd "PA" "PERF" ].

(** A gap between 100 and 150. *)
Definition gap_table : completion_table :=
  [ interval "A" 1 0 100 "OA" "PERF";
    interval "A" 1 150 200 "OA" "PERF" ].

(** The reservoir frame as the comment in [select_well] words it: of the
    rows with the same (I, J, K) only the last is kept. *)
Definition reservoir_by_ijk {CompsegsData CompdatData : Type}
    (df_compsegs : list (@compsegs_row CompsegsData))
    (df_compdat : list (@compdat_row CompdatData))
    : frame (nat * @reservoir_row CompsegsData CompdatData) :=
  reset_index
    (drop_duplicates_last same_ijk_key ijk
       (drop_WELL (merge_inner df_compsegs df_compdat))).

(** ** Further functions of the two modules *)

(** [CreateWells._active_laterals]: the value it stores in
    [self.laterals].  With no well name set the comparison of the WELL
    column with [None] selects no row. *)
Definition _active_laterals (table : completion_table) (well_name : option string)
    : list Z :=
  let rows :=
    match well_name with
    | Some name => rows_of_well name table
    | None => []
    end in
  unique (column BRANCH rows).

(** [set_default_perf_section]. *)
Definition set_default_perf_section (df_comp : completion_table) : completion_table :=
  let df_comp := assign set_NVALVEPERJOINT
    (np_where (eq_str (column DEVICETYPE df_comp) "PERF") f0
       (column NVALVEPERJOINT df_comp)) df_comp in
  let df_comp := assign set_DEVICENUMBER
    (np_where (eq_str (column DEVICETYPE df_comp) "PERF") 0%Z
       (column DEVICENUMBER df_comp)) df_comp in
  df_comp.

(** What [set_default_perf_section] makes of one row. *)
Definition perf_defaults (r : completion_row) : completion_row :=
  if bool_decide (DEVICETYPE r = "PERF")
  then mk_completion_row (WELL r) (BRANCH r) (STARTMD r) (ENDMD r) (INNER_ID r)
         (OUTER_ID r) (ROUGHNESS r) (ANNULUS r) f0 (DEVICETYPE r) 0
  else r.

(** A float is NaN. *)
Definition is_nan (x : float) : bool :=
  match x with
  | S754_nan => true
  | _ => false
  end.

(** A well with two laterals, the second listed between rows of the
    first. *)
Definition two_laterals : completion_table :=
  [ interval "A" 1 0 100 "OA" "ICD";
    interval "A" 2 0 50 "OA" "PERF";
    interval "A" 1 100 200 "GP" "PERF";
    interval "B" 1 0 100 "OA" "VALVE" ].

(** The key under which pandas files a float: the two zeros are one key,
    NaN is a key of its own. *)
Definition float_key (x : float) : float :=
  match x with
  | S754_zero _ => S754_zero false
  | _ => x
  end.

(** The frame of [select_well] after the merge and the removal of the
    WELL column. *)
Definition joined_frame {CompsegsData CompdatData WelsegsHeader WelsegsContent : Type}
    (schedule : @WellSchedule CompsegsData CompdatData WelsegsHeader WelsegsContent)
    (name : string) (lateral : Z) : frame (@reservoir_row CompsegsData CompdatData) :=
  drop_WELL (merge_inner (get_compsegs schedule name lateral) (get_compdat schedule name)).

(** A schedule with two cells at two depth ranges, in which COMPDAT lists
    the first cell twice. *)
Definition compdat_twice : @WellSchedule unit nat unit unit :=
  mk_WellSchedule
    (fun _ _ => (tt, tt))
    (fun _ _ => [ mk_compsegs_row 1 1 1 (float_of_Z 0) (float_of_Z 10) tt;
                  mk_compsegs_row 1 1 2 (float_of_Z 10) (float_of_Z 20) tt ])
    (fun _ => [ mk_compdat_row "A" 1 1 1 7%nat;
                mk_compdat_row "A" 1 1 2 8%nat;
                mk_compdat_row "A" 1 1 1 9%nat ]).

Definition engine_compdat_twice : @CreateWells unit nat unit unit unit :=
  mk_CreateWells (Some "A") [] None None [] tt.

(** Rows for the validation examples. *)
Definition nan_start_row : completion_row :=
  mk_completion_row "A" 1 S754_nan (float_of_Z 200) (float_of_Z 1) (float_of_Z 2)
    (float_of_Z 1) "OA" (float_of_Z 1) "PERF" 1.

Definition point_perf : completion_table := [ interval "A" 1 100 100 "OA" "PERF" ].

(** The labels of a frame count up from [lo], row by row. *)
Definition labelled_from {R : Type} (lo : nat) (df : frame R) : Prop :=
  forall pos x, df !! pos = Some x -> x.1 = (lo + pos)%nat.

(** * Properties *)

(** ** Strings *)

(** [kw] occurs in [s]: some text, then [kw], then some text. *)
Definition occurs (kw s : string) : Prop := exists a b, s = a +:+ kw +:+ b.

Lemma append_String (c : ascii) (a b : string) :
  String c a +:+ b = String c (a +:+ b).
Proof. reflexivity. Qed.

Lemma append_empty (b : string) : "" +:+ b = b.
Proof. reflexivity. Qed.

Lemma append_assoc (a b c : string) : (a +:+ b) +:+ c = a +:+ b +:+ c.
Proof.
  induction a as [|x a IH]; [done |]. by rewrite !append_String, IH.
Qed.

Lemma append_nil_r (a : string) : a +:+ "" = a.
Proof.
  induction a as [|x a IH]; [done |]. by rewrite append_String, IH.
Qed.

Lemma prefix_split (p s : string) :
  String.prefix p s = true <-> exists b, s = p +:+ b.
Proof.
  revert s. induction p as [|c p IH]; intros s; simpl.
  - split; [intros _; by exists s | by destruct s].
  - destruct s as [|d s]; cbn [String.prefix].
    + split; [done | intros [b Hb]; discriminate].
    + destruct (ascii_dec c d) as [->|Hne].
      * rewrite IH. split; intros [b Hb]; exists b;
          rewrite append_String in *; congruence.
      * split; [done | intros [b Hb]; rewrite append_String in Hb; congruence].
Qed.

Lemma str_in_occurs (kw s : string) : str_in kw s = true <-> occurs kw s.
Proof.
  induction s as [|c s IH].
  - cbn [str_in]. rewrite orb_false_r, prefix_split. split.
    + intros [b Hb]. by exists "", b.
    + intros ([|x a] & b & Hab); [by exists b | discriminate].
  - cbn [str_in]. rewrite orb_true_iff, IH, prefix_split. split.
    + intros [[b Hb] | (a & b & Hab)].
      * by exists "", b.
      * exists (String c a), b. by rewrite append_String, Hab.
    + intros ([|x a] & b & Hab).
      * left. by exists b.
      * right. exists a, b. rewrite append_String in Hab. congruence.
Qed.

Lemma str_in_not_occurs (kw s : string) : str_in kw s = false <-> ~ occurs kw s.
Proof.
  rewrite <- str_in_occurs. by destruct (str_in kw s).
Qed.

Lemma occurs_self (kw : string) : occurs kw kw.
Proof. exists "", "". by rewrite append_nil_r. Qed.

Lemma occurs_app_r (kw p s : string) : occurs kw s -> occurs kw (p +:+ s).
Proof. intros (a & b & ->). exists (p +:+ a), b. by rewrite append_assoc. Qed.

Lemma occurs_app_l (kw s q : string) : occurs kw s -> occurs kw (s +:+ q).
Proof. intros (a & b & ->). exists a, (b +:+ q). by rewrite !append_assoc. Qed.

Lemma occurs_middle (a kw b : string) : occurs kw (a +:+ kw +:+ b).
Proof. by exists a, b. Qed.

(** ** Floats against zero *)

Lemma float_sign_cases (x : float) :
  x = S754_nan
  \/ (fgt x f0 = true /\ feq x f0 = false /\ flt x f0 = false)
  \/ (fgt x f0 = false /\ feq x f0 = true /\ flt x f0 = false)
  \/ (fgt x f0 = false /\ feq x f0 = false /\ flt x f0 = true).
Proof.
  destruct x as [s|s| |s m e]; [| | by left |]; right;
    destruct s; cbv; tauto.
Qed.

Lemma float_nan_cases : fgt S754_nan f0 = false /\ feq S754_nan f0 = false /\ flt S754_nan f0 = false.
Proof. done. Qed.

(** ** SegmentMethodResolver *)

Section MethodProperties.

Variable float_str : float -> string.

(** C2. For a float segment length, [_method] returns FIX when the value
    is greater than zero, CELLS when it equals zero and USER when it is
    less than zero; in each of the three cases it returns and does not
    raise. *)
Theorem method_float_sign (x : float) :
  (fgt x f0 = true -> _method float_str (PyFloat x) = Ret FIX) /\
  (feq x f0 = true -> _method float_str (PyFloat x) = Ret CELLS) /\
  (flt x f0 = true -> _method float_str (PyFloat x) = Ret USER).
Proof.
  unfold _method.
  destruct (float_sign_cases x)
    as [-> | [(Hg & He & Hl) | [(Hg & He & Hl) | (Hg & He & Hl)]]];
    rewrite ?Hg, ?He, ?Hl; repeat split; done.
Qed.

(** C10. A float segment length that is not NaN makes [_method] return
    FIX, CELLS or USER; the [raise] of the float branch is reached for
    NaN, and only for NaN. *)
Theorem method_float_nan (x : float) :
  (x <> S754_nan ->
     exists m, _method float_str (PyFloat x) = Ret m /\ (m = FIX \/ m = CELLS \/ m = USER)) /\
  ((exists e, _method float_str (PyFloat x) = Raise e) <-> x = S754_nan).
Proof.
  unfold _method.
  destruct (float_sign_cases x)
    as [-> | [(Hg & He & Hl) | [(Hg & He & Hl) | (Hg & He & Hl)]]];
    rewrite ?Hg, ?He, ?Hl.
  - split; [done |]. split; [done | intros _; by eexists].
  - split; [intros _; exists FIX; tauto |].
    split; [by intros [e Hr] | intros ->; discriminate].
  - split; [intros _; exists CELLS; tauto |].
    split; [by intros [e Hr] | intros ->; discriminate].
  - split; [intros _; exists USER; tauto |].
    split; [by intros [e H] | intros ->; discriminate].
Qed.

(** C6. For a string segment length, with the text compared in lower
    case: WELSEGS when it contains welsegs or infill; otherwise CELLS
    when it contains cell; otherwise USER when it contains user;
    otherwise the error for an unrecognized method, whose message
    contains the string as given. *)
Theorem method_string (s : string) :
  (occurs "welsegs" (lower s) \/ occurs "infill" (lower s) ->
     _method float_str (PyStr s) = Ret WELSEGS) /\
  (~ occurs "welsegs" (lower s) -> ~ occurs "infill" (lower s) ->
     occurs "cell" (lower s) ->
     _method float_str (PyStr s) = Ret CELLS) /\
  (~ occurs "welsegs" (lower s) -> ~ occurs "infill" (lower s) ->
     ~ occurs "cell" (lower s) -> occurs "user" (lower s) ->
     _method float_str (PyStr s) = Ret USER) /\
  (~ occurs "welsegs" (lower s) -> ~ occurs "infill" (lower s) ->
     ~ occurs "cell" (lower s) -> ~ occurs "user" (lower s) ->
     exists msg, _method float_str (PyStr s) = Raise (ValueError msg) /\ occurs s msg).
Proof.
  unfold _method. repeat split.
  - intros [H | H]; apply str_in_occurs in H; rewrite H; [done | by rewrite orb_true_r].
  - intros Hw Hi Hc. apply str_in_not_occurs in Hw, Hi. apply str_in_occurs in Hc.
    by rewrite Hw, Hi, Hc.
  - intros Hw Hi Hc Hu. apply str_in_not_occurs in Hw, Hi, Hc. apply str_in_occurs in Hu.
    by rewrite Hw, Hi, Hc, Hu.
  - intros Hw Hi Hc Hu. apply str_in_not_occurs in Hw, Hi, Hc, Hu.
    rewrite Hw, Hi, Hc, Hu. simpl. eexists. split; [done |].
    unfold unrecognized_method. apply occurs_middle.
Qed.

End MethodProperties.

(** ** ActiveWellFilter *)

Lemma bind_Ret {A B : Type} (a : A) (k : A -> res B) : (Ret a ≫= k) = k a.
Proof. reflexivity. Qed.

Lemma unique_acc_elem {A : Type} `{EqDecision A} (seen l : list A) (x : A) :
  x ∈ unique_acc seen l <-> x ∈ l /\ x ∉ seen.
Proof.
  revert seen. induction l as [|y l IH]; intros seen; simpl.
  - split; [by intros ?%elem_of_nil | by intros [?%elem_of_nil _]].
  - case_bool_decide as Hy.
    + rewrite IH, elem_of_cons. split; [tauto |]. intros [[-> | Hl] Hs]; tauto.
    + rewrite !elem_of_cons, IH, elem_of_cons. split.
      * intros [-> | [Hl Hs]]; [tauto |]. split; [tauto | intros ?; apply Hs; tauto].
      * intros [[-> | Hl] Hs]; [tauto |].
        destruct (decide (x = y)) as [-> | Hne]; [tauto |].
        right. split; [done |]. intros [? | ?]; tauto.
Qed.

Lemma unique_acc_NoDup {A : Type} `{EqDecision A} (seen l : list A) :
  NoDup (unique_acc seen l).
Proof.
  revert seen. induction l as [|y l IH]; intros seen; simpl.
  - constructor.
  - case_bool_decide; [apply IH |].
    apply NoDup_cons. split; [| apply IH].
    rewrite unique_acc_elem, elem_of_cons. tauto.
Qed.

Lemma unique_elem {A : Type} `{EqDecision A} (l : list A) (x : A) :
  x ∈ unique l <-> x ∈ l.
Proof.
  unfold unique. rewrite unique_acc_elem. split; [tauto |].
  intros Hx. split; [done | apply not_elem_of_nil].
Qed.

Lemma unique_set_order : set_order unique.
Proof. intros l. split; [apply unique_acc_NoDup | intros x; apply unique_elem]. Qed.

Lemma reverse_unique_set_order : set_order reverse_unique.
Proof.
  intros l. unfold reverse_unique. split.
  - rewrite reverse_Permutation. apply unique_acc_NoDup.
  - intros x. by rewrite elem_of_reverse, unique_elem.
Qed.

Lemma list_remove_middle (w : string) (pre post : list string) :
  w ∉ pre -> list_remove w (pre ++ w :: post) = Ret (pre ++ post).
Proof.
  induction pre as [|y pre IH]; intros Hw; simpl.
  - by rewrite bool_decide_eq_true_2.
  - apply not_elem_of_cons in Hw as [Hne Hw].
    rewrite bool_decide_eq_false_2 by done. by rewrite IH.
Qed.

(** The loop removes exactly the deactivated wells and keeps the order
    of the list it starts from. *)
Lemma active_wells_loop_filter (table : completion_table) (flag : bool)
    (todo pre : list string) :
  NoDup (pre ++ todo) ->
  exists warned,
    active_wells_loop table flag todo (pre ++ todo)
    = Ret (pre ++ filter (fun w => deactivated table flag w = false) todo, warned).
Proof.
  revert pre. induction todo as [|w todo IH]; intros pre Hnd.
  - exists false. by rewrite filter_nil.
  - assert (Hw : w ∉ pre).
    { apply NoDup_app in Hnd as (_ & Hd & _). intros Hin. apply (Hd _ Hin). left. }
    assert (Hnd' : NoDup (pre ++ todo)).
    { apply NoDup_app in Hnd as (H1 & H2 & H3). apply NoDup_cons in H3 as [_ H3].
      apply NoDup_app. repeat split; [done | | done].
      intros x Hx Hx'. apply (H2 x Hx). by right. }
    cbn [active_wells_loop]. fold (deactivated table flag w).
    destruct (deactivated table flag w) eqn:Hdw.
    + rewrite list_remove_middle, bind_Ret by done.
      rewrite filter_cons_False by (rewrite Hdw; done).
      case_bool_decide as Hnil; [| by apply IH].
      exists true. apply app_eq_nil in Hnil as [-> ->]. by rewrite filter_nil.
    + rewrite bind_Ret, filter_cons_True by done.
      rewrite bool_decide_eq_false_2 by (by destruct pre).
      rewrite (cons_middle w pre todo), app_assoc in Hnd |- *.
      destruct (IH _ Hnd) as [b Hb]. exists b. by rewrite Hb, <- app_assoc.
Qed.

Lemma active_wells_result (list_of_set : list string -> list string)
    (table : completion_table) (flag : bool) :
  set_order list_of_set ->
  exists warned,
    _active_wells list_of_set table flag
    = Ret (filter (fun w => deactivated table flag w = false)
             (list_of_set (column WELL table)), warned).
Proof.
  intros Hset. destruct (Hset (column WELL table)) as [Hnd _].
  apply (active_wells_loop_filter table flag _ []), Hnd.
Qed.

Lemma isin_any_false (values series : list string) :
  isin_any values series = false <-> forall v, v ∈ series -> v ∉ values.
Proof.
  unfold isin_any. induction series as [|a series IH]; simpl.
  - split; [by intros _ v ?%elem_of_nil | done].
  - rewrite orb_false_iff, IH, bool_decide_eq_false. split.
    + intros [Ha Hs] v [-> | Hv]%elem_of_cons; auto.
    + intros H. split; [apply H; left | intros v Hv; apply H; by right].
Qed.

Lemma gp_check_true (table : completion_table) (w : string) :
  gp_check table w = true <->
  forall r, r ∈ table -> WELL r = w -> ANNULUS r <> "OA".
Proof.
  unfold gp_check, column, rows_of_well. rewrite negb_true_iff, isin_any_false. split.
  - intros H r Hr Hw Ha. apply (H (ANNULUS r)).
    + apply list_elem_of_fmap. exists r. split; [done |]. by apply list_elem_of_filter.
    + rewrite Ha. left.
  - intros H v (r & -> & [Hw Hr]%list_elem_of_filter)%list_elem_of_fmap Hv.
    apply (H r Hr Hw). by apply list_elem_of_singleton in Hv.
Qed.

Lemma perf_check_true (table : completion_table) (w : string) :
  perf_check table w = true <->
  forall r, r ∈ table -> WELL r = w -> DEVICETYPE r ∉ active_devices.
Proof.
  unfold perf_check, column, rows_of_well. rewrite negb_true_iff, isin_any_false. split.
  - intros H r Hr Hw. apply (H (DEVICETYPE r)).
    apply list_elem_of_fmap. exists r. split; [done |]. by apply list_elem_of_filter.
  - intros H v (r & -> & [Hw Hr]%list_elem_of_filter)%list_elem_of_fmap.
    by apply H.
Qed.

Lemma deactivated_true (table : completion_table) (flag : bool) (w : string) :
  deactivated table flag w = true <->
  (forall r, r ∈ table -> WELL r = w -> ANNULUS r <> "OA")
  /\ (forall r, r ∈ table -> WELL r = w -> DEVICETYPE r ∉ active_devices)
  /\ flag = false.
Proof.
  unfold deactivated.
  rewrite !andb_true_iff, negb_true_iff, gp_check_true, perf_check_true. tauto.
Qed.

(** C1, as the code has it. A well of the table is left out of the output
    exactly when none of its intervals has annulus OA, none of its
    intervals has a device type among AICD, AICV, DAR, ICD, VALVE and
    ICV, and the gravel-pack-perforated flag is false.  Packer rows (PA)
    do not keep a well active. *)
Theorem active_wells_excluded (list_of_set : list string -> list string)
    (table : completion_table) (flag : bool) :
  set_order list_of_set ->
  exists wells warned,
    _active_wells list_of_set table flag = Ret (wells, warned) /\
    forall w, w ∈ column WELL table ->
      (w ∉ wells <->
       (forall r, r ∈ table -> WELL r = w -> ANNULUS r <> "OA")
       /\ (forall r, r ∈ table -> WELL r = w -> DEVICETYPE r ∉ active_devices)
       /\ flag = false).
Proof.
  intros Hset. destruct (active_wells_result _ table flag Hset) as [warned Hres].
  eexists _, warned. split; [exact Hres |].
  intros w Hw. rewrite <- deactivated_true, list_elem_of_filter.
  destruct (Hset (column WELL table)) as [_ Hin]. apply Hin in Hw.
  destruct (deactivated table flag w); split; intros H; try done.
  - by intros [? _].
  - exfalso. by apply H.
Qed.

Lemma active_wells_excluded_witness :
  exists wells warned,
    _active_wells unique gravel_pack_with_packer false = Ret (wells, warned) /\
    forall w, w ∈ column WELL gravel_pack_with_packer ->
      (w ∉ wells <->
       (forall r, r ∈ gravel_pack_with_packer -> WELL r = w -> ANNULUS r <> "OA")
       /\ (forall r, r ∈ gravel_pack_with_packer -> WELL r = w ->
             DEVICETYPE r ∉ active_devices)
       /\ false = false).
Proof.
  apply (active_wells_excluded unique gravel_pack_with_packer false unique_set_order).
Defined.

(** A gravel-packed well with a packer is excluded, although one of its
    intervals has annulus PA and not GP. *)
Lemma excluded_with_packer_row :
  ~ excluded_iff_all_gravel_pack unique gravel_pack_with_packer false.
Proof.
  intros H.
  assert (Hrun : _active_wells unique gravel_pack_with_packer false = Ret ([], true))
    by (vm_compute; reflexivity).
  assert (Hin : "A" ∈ column WELL gravel_pack_with_packer) by (vm_compute; left).
  destruct (proj1 (H [] true Hrun "A" Hin) (not_elem_of_nil _)) as (Hgp & _ & _).
  assert (Hrow : interval "A" 1 100 100 "PA" "PERF" ∈ gravel_pack_with_packer)
    by (right; left).
  specialize (Hgp _ Hrow eq_refl). discriminate Hgp.
Qed.

(** C4, as the code has it. The output holds every well of the table that
    is not deactivated exactly once; it is the iteration order of the set
    of names with the deactivated wells removed, hence a permutation of
    the encounter order. *)
Theorem active_wells_order (list_of_set : list string -> list string)
    (table : completion_table) (flag : bool) :
  set_order list_of_set ->
  exists wells warned,
    _active_wells list_of_set table flag = Ret (wells, warned) /\
    wells = filter (fun w => deactivated table flag w = false)
              (list_of_set (column WELL table)) /\
    NoDup wells /\
    wells ≡ₚ encounter_order table flag.
Proof.
  intros Hset. destruct (active_wells_result _ table flag Hset) as [warned Hres].
  destruct (Hset (column WELL table)) as [Hnd Hin].
  eexists _, warned. split; [exact Hres |]. split; [done |].
  assert (Hnd' : NoDup (filter (fun w => deactivated table flag w = false)
                          (list_of_set (column WELL table))))
    by (by apply NoDup_filter).
  split; [done |].
  apply NoDup_Permutation; [done | apply NoDup_filter, unique_acc_NoDup |].
  intros w. unfold encounter_order.
  by rewrite !list_elem_of_filter, Hin, unique_elem.
Qed.

Lemma active_wells_order_witness :
  exists wells warned,
    _active_wells reverse_unique two_wells false = Ret (wells, warned) /\
    wells = filter (fun w => deactivated two_wells false w = false)
              (reverse_unique (column WELL two_wells)) /\
    NoDup wells /\
    wells ≡ₚ encounter_order two_wells false.
Proof.
  apply (active_wells_order reverse_unique two_wells false reverse_unique_set_order).
Defined.

(** With a set iterated from the last name to the first, B and A come out
    as A, B. *)
Lemma output_not_in_encounter_order :
  ~ output_in_encounter_order reverse_unique two_wells false.
Proof.
  intros H.
  assert (Hrun : _active_wells reverse_unique two_wells false = Ret (["A"; "B"], false))
    by (vm_compute; reflexivity).
  specialize (H _ _ Hrun). vm_compute in H. discriminate H.
Qed.

(** ** Packer defaults *)

Lemma assign_np_where {A : Type} (set : A -> completion_row -> completion_row)
    (get : completion_row -> A) (v : A) (df : completion_table) :
  assign set (np_where (eq_str (column ANNULUS df) "PA") v (column get df)) df
  = (fun r => set (if bool_decide (ANNULUS r = "PA") then v else get r) r) <$> df.
Proof.
  unfold assign, np_where, eq_str, column.
  induction df as [|r df IH]; [done |]. cbn. by rewrite <- IH.
Qed.

Lemma set_default_packer_section_rows (df : completion_table) :
  set_default_packer_section df = packer_defaults <$> df.
Proof.
  unfold set_default_packer_section. cbv zeta.
  rewrite !assign_np_where, <- !list_fmap_compose.
  apply list_fmap_ext. intros i [w b s e ii oi ro an nv dt dn] _.
  unfold packer_defaults, compose. cbn.
  by case_bool_decide.
Qed.

(** C9. [set_default_packer_section] keeps the number and order of rows;
    a row whose ANNULUS is not PA is unchanged, and a row whose ANNULUS
    is PA has INNER_ID, OUTER_ID, ROUGHNESS and NVALVEPERJOINT set to
    0.0, DEVICETYPE to PERF and DEVICENUMBER to 0, the other columns
    being unchanged. *)
Theorem packer_section_frame (df : completion_table) (i : nat) (r : completion_row) :
  df !! i = Some r ->
  length (set_default_packer_section df) = length df /\
  exists r', set_default_packer_section df !! i = Some r' /\
    (ANNULUS r <> "PA" -> r' = r) /\
    (ANNULUS r = "PA" ->
       r' = mk_completion_row (WELL r) (BRANCH r) (STARTMD r) (ENDMD r) f0 f0 f0
              (ANNULUS r) f0 "PERF" 0).
Proof.
  intros Hr. rewrite set_default_packer_section_rows, length_fmap. split; [done |].
  exists (packer_defaults r). rewrite list_lookup_fmap, Hr. split; [done |].
  unfold packer_defaults. by case_bool_decide.
Qed.

Lemma packer_section_frame_witness :
  let df := gravel_pack_with_packer in
  let r := interval "A" 1 100 100 "PA" "PERF" in
  length (set_default_packer_section df) = length df /\
  exists r', set_default_packer_section df !! 1%nat = Some r' /\
    (ANNULUS r <> "PA" -> r' = r) /\
    (ANNULUS r = "PA" ->
       r' = mk_completion_row (WELL r) (BRANCH r) (STARTMD r) (ENDMD r) f0 f0 f0
              (ANNULUS r) f0 "PERF" 0).
Proof.
  intros df r. apply (packer_section_frame df 1 r). reflexivity.
Defined.

(** ** Validation *)

Lemma res_unit_cases (m : res unit) : m = Ret tt \/ exists e, m = Raise e.
Proof. destruct m as [[]|e]; [by left | right; by exists e]. Qed.

Lemma for_each_ok {A : Type} (l : list A) (body : A -> res unit) :
  for_each l body = Ret tt <-> forall x, x ∈ l -> body x = Ret tt.
Proof.
  induction l as [|x l IH]; simpl.
  - split; [by intros _ x ?%elem_of_nil | done].
  - destruct (res_unit_cases (body x)) as [Hx | [e Hx]]; rewrite Hx; simpl.
    + rewrite IH. split.
      * intros H y [-> | Hy]%elem_of_cons; auto.
      * intros H y Hy. apply H. by right.
    + split; [done |]. intros H. specialize (H x). rewrite Hx in H.
      discriminate H. left.
Qed.

Lemma SFcompare_antisym (a b : float) :
  SFcompare b a = CompOpp <$> SFcompare a b.
Proof.
  destruct a as [sa|sa| |sa ma ea], b as [sb|sb| |sb mb eb]; try done;
    try (by destruct sa); try (by destruct sb); try (by destruct sa, sb).
  cbn. destruct sa, sb; try done; f_equal;
    rewrite (Z.compare_antisym eb ea); destruct (eb ?= ea)%Z; try done; cbn;
    rewrite (Pos.compare_cont_antisym ma mb Eq); cbn;
    by destruct (Pos.compare_cont Eq ma mb).
Qed.

Lemma fgt_not_flt (a b : float) : fgt a b = true -> flt a b = false.
Proof.
  unfold fgt, flt, SFltb. rewrite (SFcompare_antisym a b).
  by destruct (SFcompare a b) as [[]|].
Qed.

Lemma fne_feq (a b : float) : fne a b = negb (feq a b).
Proof. reflexivity. Qed.

Section ValidationProperties.

Variable float_str : float -> string.
Variable invalid_annulus : string -> res unit.

Lemma check_row_accepts (df : completion_table) (well : string) (idx : nat)
    (r : completion_row) :
  df !! idx = Some r ->
  _check_for_errors float_str invalid_annulus df well idx = Ret tt ->
  lengths_ok r /\
  (forall p, (0 < idx)%nat -> df !! (idx - 1)%nat = Some p ->
     fgt (STARTMD r) (ENDMD p) = false /\ flt (STARTMD r) (ENDMD p) = false) /\
  DEVICETYPE r ∈ valid_devices.
Proof.
  intros Hr. unfold _check_for_errors, iloc, column, lengths_ok, not_in.
  rewrite !list_lookup_fmap, Hr. simpl. rewrite fne_feq.
  destruct (bool_decide (ANNULUS r = "PA") && _) eqn:H1; simpl; [done |].
  destruct (negb (bool_decide (ANNULUS r = "PA")) && _ && _) eqn:H2; simpl; [done |].
  assert (Hlen : (ANNULUS r = "PA" -> feq (STARTMD r) (ENDMD r) = true) /\
                 (ANNULUS r <> "PA" -> DEVICETYPE r <> "ICV" ->
                    feq (STARTMD r) (ENDMD r) = false)).
  { split.
    - intros Ha. rewrite bool_decide_eq_true_2 in H1 by done.
      destruct (feq (STARTMD r) (ENDMD r)); [done | discriminate H1].
    - intros Ha Hd. rewrite !bool_decide_eq_false_2 in H2 by done. exact H2. }
  destruct (0 <? idx)%nat eqn:Hidx.
  - destruct (df !! (idx - 1)%nat) as [p|] eqn:Hp; simpl; [| done].
    destruct (fgt (STARTMD r) (ENDMD p)) eqn:Hg; simpl; [done |].
    destruct (flt (STARTMD r) (ENDMD p)) eqn:Hl; simpl; [done |].
    destruct (bool_decide (DEVICETYPE r ∈ valid_devices)) eqn:Hd; simpl; [| done].
    intros _. split; [done |]. split; [| by apply bool_decide_eq_true in Hd].
    intros p' _ [= <-]. done.
  - simpl.
    destruct (bool_decide (DEVICETYPE r ∈ valid_devices)) eqn:Hd; simpl; [| done].
    intros _. split; [done |]. split; [| by apply bool_decide_eq_true in Hd].
    intros p' Hpos. apply Nat.ltb_ge in Hidx. lia.
Qed.

Lemma check_row_gap_or_overlap (df : completion_table) (well : string) (idx : nat)
    (r p : completion_row) :
  (0 < idx)%nat -> df !! idx = Some r -> df !! (idx - 1)%nat = Some p ->
  lengths_ok r ->
  (fgt (STARTMD r) (ENDMD p) = true ->
     _check_for_errors float_str invalid_annulus df well idx
     = Raise (SystemExit (incomplete_msg float_str well (ENDMD p) (STARTMD r)))) /\
  (flt (STARTMD r) (ENDMD p) = true ->
     _check_for_errors float_str invalid_annulus df well idx
     = Raise (SystemExit (overlapping_msg float_str well (ENDMD p) (STARTMD r)))).
Proof.
  intros Hidx Hr Hp [Hpa Hnpa].
  unfold _check_for_errors, iloc, column.
  rewrite !list_lookup_fmap, Hr, Hp. simpl. rewrite fne_feq.
  apply Nat.ltb_lt in Hidx. rewrite Hidx.
  assert (H1 : bool_decide (ANNULUS r = "PA")
               && negb (feq (STARTMD r) (ENDMD r)) = false).
  { case_bool_decide as Ha; [| done]. by rewrite (Hpa Ha). }
  assert (H2 : negb (bool_decide (ANNULUS r = "PA"))
               && negb (bool_decide (DEVICETYPE r = "ICV"))
               && feq (STARTMD r) (ENDMD r) = false).
  { case_bool_decide as Ha; [done |]. case_bool_decide as Hd; [done |].
    by rewrite (Hnpa Ha Hd). }
  rewrite H1, H2. simpl. split.
  - by intros ->.
  - intros Hl. destruct (fgt (STARTMD r) (ENDMD p)) eqn:Hg.
    + apply fgt_not_flt in Hg. congruence.
    + simpl. by rewrite Hl.
Qed.

Lemma check_group_rejects (df : completion_table) (well : string) (idx : nat) (e : exn) :
  (idx < length df)%nat ->
  _check_for_errors float_str invalid_annulus df well idx = Raise e ->
  exists e', check_group float_str invalid_annulus df well = Raise e'.
Proof.
  intros Hidx He.
  destruct (res_unit_cases (check_group float_str invalid_annulus df well))
    as [Hok | Hraise]; [| done].
  unfold check_group in Hok. rewrite for_each_ok in Hok.
  rewrite Hok in He; [done |]. apply elem_of_seq. lia.
Qed.

Lemma depth_messages_name_range (well : string) (prev_end start : float) :
  (occurs well (incomplete_msg float_str well prev_end start)
   /\ occurs (float_str prev_end) (incomplete_msg float_str well prev_end start)
   /\ occurs (float_str start) (incomplete_msg float_str well prev_end start))
  /\ (occurs well (overlapping_msg float_str well prev_end start)
      /\ occurs (float_str prev_end) (overlapping_msg float_str well prev_end start)
      /\ occurs (float_str start) (overlapping_msg float_str well prev_end start)).
Proof.
  unfold incomplete_msg, overlapping_msg.
  repeat split;
    repeat (first [ apply occurs_self
                  | apply occurs_app_l, occurs_self
                  | apply occurs_app_r ]).
Qed.

(** C5, as the code has it. A (well, branch) group is accepted only if,
    in every row, a packer has start equal to end and an interval that is
    neither a packer nor an ICV has start different from end, and every
    row but the first starts neither above nor below the end of the row
    before it.  A gap or an overlap at a row whose length is in order
    raises an error whose message names the well and the two depths that
    bound it, and the group is rejected. *)
Theorem check_group_contiguous (df : completion_table) (well : string) :
  (check_group float_str invalid_annulus df well = Ret tt ->
   forall idx r, df !! idx = Some r ->
     lengths_ok r /\
     forall p, (0 < idx)%nat -> df !! (idx - 1)%nat = Some p ->
       fgt (STARTMD r) (ENDMD p) = false /\ flt (STARTMD r) (ENDMD p) = false) /\
  (forall idx r p,
     (0 < idx)%nat -> df !! idx = Some r -> df !! (idx - 1)%nat = Some p ->
     lengths_ok r ->
     fgt (STARTMD r) (ENDMD p) = true \/ flt (STARTMD r) (ENDMD p) = true ->
     exists msg,
       _check_for_errors float_str invalid_annulus df well idx = Raise (SystemExit msg)
       /\ occurs well msg
       /\ occurs (float_str (ENDMD p)) msg
       /\ occurs (float_str (STARTMD r)) msg
       /\ exists e, check_group float_str invalid_annulus df well = Raise e).
Proof.
  split.
  - intros Hok idx r Hr. unfold check_group in Hok. rewrite for_each_ok in Hok.
    assert (Hidx : (idx < length df)%nat) by (by eapply lookup_lt_Some).
    assert (Hrow : _check_for_errors float_str invalid_annulus df well idx = Ret tt).
    { apply Hok, elem_of_seq. lia. }
    destruct (check_row_accepts df well idx r Hr Hrow) as (Hlen & Hprev & _).
    by split.
  - intros idx r p Hpos Hr Hp Hlen Hbad.
    assert (Hidx : (idx < length df)%nat) by (by eapply lookup_lt_Some).
    destruct (check_row_gap_or_overlap df well idx r p Hpos Hr Hp Hlen) as [Hgap Hover].
    destruct (depth_messages_name_range well (ENDMD p) (STARTMD r))
      as [(Hg1 & Hg2 & Hg3) (Ho1 & Ho2 & Ho3)].
    destruct Hbad as [Hbad | Hbad]; eexists; (split; [by auto |]);
      repeat (split; [done |]);
      eapply check_group_rejects; eauto.
Qed.

End ValidationProperties.

Lemma check_group_contiguous_witness :
  let r := interval "A" 1 100 100 "OA" "ICV" in
  let p := interval "A" 1 0 100 "OA" "PERF" in
  (lengths_ok r
   /\ fgt (STARTMD r) (ENDMD p) = false /\ flt (STARTMD r) (ENDMD p) = false) /\
  (exists msg,
     _check_for_errors float_class_str invalid_annulus_abort gap_table "A" 1
     = Raise (SystemExit msg)
     /\ occurs "A" msg
     /\ occurs (float_class_str (float_of_Z 100)) msg
     /\ occurs (float_class_str (float_of_Z 150)) msg
     /\ exists e, check_group float_class_str invalid_annulus_abort gap_table "A" = Raise e).
Proof.
  intros r p. split.
  - assert (Hok : check_group float_class_str invalid_annulus_abort icv_point "A" = Ret tt)
      by (vm_compute; reflexivity).
    destruct (proj1 (check_group_contiguous float_class_str invalid_annulus_abort
                       icv_point "A") Hok 1%nat r eq_refl) as [Hlen Hprev].
    split; [exact Hlen |]. apply (Hprev p); [lia | reflexivity].
  - apply (proj2 (check_group_contiguous float_class_str invalid_annulus_abort
                    gap_table "A")
             1%nat (interval "A" 1 150 200 "OA" "PERF") p).
    + lia.
    + reflexivity.
    + reflexivity.
    + split; [intros H; vm_compute in H; discriminate H | intros _ _; vm_compute; reflexivity].
    + left. vm_compute. reflexivity.
Defined.

(** An open-annulus ICV interval of length zero is accepted; and a packer
    with length is rejected with the same text whatever its depths. *)
Lemma zero_length_icv_accepted :
  ~ accepted_only_if_positive_length float_class_str invalid_annulus_abort icv_point "A"
  /\ check_group float_class_str invalid_annulus_abort (long_packer 100 200) "A"
     = Raise (SystemExit "Packer segments must not have length")
  /\ check_group float_class_str invalid_annulus_abort (long_packer 300 700) "A"
     = Raise (SystemExit "Packer segments must not have length").
Proof.
  split; [| split; vm_compute; reflexivity].
  intros H.
  assert (Hok : check_group float_class_str invalid_annulus_abort icv_point "A" = Ret tt)
    by (vm_compute; reflexivity).
  assert (Hrow : interval "A" 1 100 100 "OA" "ICV" ∈ icv_point) by (right; left).
  destruct (H Hok _ Hrow) as [_ Hpos].
  assert (Hne : ANNULUS (interval "A" 1 100 100 "OA" "ICV") <> "PA") by discriminate.
  specialize (Hpos Hne). vm_compute in Hpos. discriminate Hpos.
Qed.

(** ** SegmentMethodResolver: examples *)

Lemma method_float_sign_witness :
  _method float_class_str (PyFloat (float_of_Z 250)) = Ret FIX
  /\ _method float_class_str (PyFloat f0) = Ret CELLS
  /\ _method float_class_str (PyFloat (float_of_Z (-1))) = Ret USER.
Proof.
  split; [| split].
  - apply (proj1 (method_float_sign float_class_str (float_of_Z 250))). reflexivity.
  - apply (proj1 (proj2 (method_float_sign float_class_str f0))). reflexivity.
  - apply (proj2 (proj2 (method_float_sign float_class_str (float_of_Z (-1))))).
    reflexivity.
Defined.

Lemma method_float_nan_witness :
  (exists m, _method float_class_str (PyFloat (S754_infinity true)) = Ret m
             /\ (m = FIX \/ m = CELLS \/ m = USER))
  /\ exists e, _method float_class_str (PyFloat S754_nan) = Raise e.
Proof.
  split.
  - apply (proj1 (method_float_nan float_class_str (S754_infinity true))). discriminate.
  - apply (proj2 (method_float_nan float_class_str S754_nan)). reflexivity.
Defined.

Lemma method_string_witness :
  _method float_class_str (PyStr "WELSEGS") = Ret WELSEGS
  /\ _method float_class_str (PyStr "Cells") = Ret CELLS
  /\ _method float_class_str (PyStr "USER") = Ret USER
  /\ exists msg, _method float_class_str (PyStr "fixed") = Raise (ValueError msg)
                 /\ occurs "fixed" msg.
Proof.
  split; [| split; [| split]].
  - apply (proj1 (method_string float_class_str "WELSEGS")).
    left. apply str_in_occurs. reflexivity.
  - apply (proj1 (proj2 (method_string float_class_str "Cells")));
      first [apply str_in_not_occurs | apply str_in_occurs]; reflexivity.
  - apply (proj1 (proj2 (proj2 (method_string float_class_str "USER"))));
      first [apply str_in_not_occurs | apply str_in_occurs]; reflexivity.
  - apply (proj2 (proj2 (proj2 (method_string float_class_str "fixed"))));
      apply str_in_not_occurs; reflexivity.
Defined.

(** ** WellDataSelector *)

Section SelectWellProperties.

Context {CompsegsData CompdatData WelsegsHeader WelsegsContent Other : Type}.
Variable get_completion : string -> Z -> completion_table.

(** C8. [select_well] raises the error for a missing well name exactly
    when the well name of the object is unset; with a well name set it
    returns. *)
Theorem select_well_missing_name
    (self : @CreateWells CompsegsData CompdatData WelsegsHeader WelsegsContent Other)
    (schedule : @WellSchedule CompsegsData CompdatData WelsegsHeader WelsegsContent)
    (lateral : Z) :
  (select_well get_completion self schedule lateral
   = Raise (ValueError "No well name given") <-> well_name self = None)
  /\ (well_name self <> None ->
      exists self', select_well get_completion self schedule lateral = Ret self').
Proof.
  unfold select_well. destruct (well_name self) as [name|].
  - destruct (get_welsegs schedule name lateral) as [header content].
    split; [by split | intros _; by eexists].
  - by split.
Qed.

(** The labels of [df_reservoir] are 0, 1, 2, ... after [select_well]. *)
Lemma select_well_index_dense
    (self self' : @CreateWells CompsegsData CompdatData WelsegsHeader WelsegsContent Other)
    (schedule : @WellSchedule CompsegsData CompdatData WelsegsHeader WelsegsContent)
    (lateral : Z) :
  select_well get_completion self schedule lateral = Ret self' ->
  (df_reservoir self').*1 = seq 0 (length (df_reservoir self')).
Proof.
  unfold select_well. destruct (well_name self) as [name|]; [| done].
  destruct (get_welsegs schedule name lateral) as [header content].
  intros [= <-]. cbn [df_reservoir]. unfold reset_index, range_index.
  rewrite length_imap, fmap_imap.
  generalize (drop_duplicates_last same_float_key r_STARTMD
                (drop_WELL (merge_inner (get_compsegs schedule name lateral)
                                        (get_compdat schedule name)))).
  intros l. rewrite <- (list_fmap_id (seq 0 (length l))), <- (imap_seq_0 l id).
  by apply imap_ext.
Qed.

End SelectWellProperties.

Lemma select_well_missing_name_witness :
  select_well (fun _ _ => []) fresh_engine cell_twice 1
  = Raise (ValueError "No well name given")
  /\ exists self', select_well (fun _ _ => []) (engine_on "A") cell_twice 1 = Ret self'.
Proof.
  split.
  - apply (proj2 (proj1 (select_well_missing_name (fun _ _ => [])
                           fresh_engine cell_twice 1))).
    reflexivity.
  - apply (proj2 (select_well_missing_name (fun _ _ => []) (engine_on "A") cell_twice 1)).
    discriminate.
Defined.

(** C3, on a cell that COMPSEGS lists twice. [select_well] removes
    duplicates by STARTMD: both rows of the cell (1, 1, 1) stay in
    [df_reservoir], where removal by (I, J, K) keeps the last one only. *)
Theorem select_well_keeps_repeated_cell :
  exists self' a b,
    select_well (fun _ _ => []) (engine_on "A") cell_twice 1 = Ret self'
    /\ df_reservoir self' = [(0%nat, (0%nat, a)); (1%nat, (1%nat, b))]
    /\ ijk a = (1, 1, 1)%Z /\ ijk b = (1, 1, 1)%Z
    /\ reservoir_by_ijk (get_compsegs cell_twice "A" 1) (get_compdat cell_twice "A")
       = [(0%nat, (1%nat, b))].
Proof.
  eexists _, _, _. split; [reflexivity |]. vm_compute. repeat split.
Qed.

(** The rows of the inner join: one for each pair of a COMPSEGS row and a
    COMPDAT row with the same (I, J, K); a cell without a COMPDAT record
    has no row. *)
Lemma merge_inner_rows {CompsegsData CompdatData : Type}
    (left : list (@compsegs_row CompsegsData))
    (right : list (@compdat_row CompdatData))
    (row : @reservoir_row CompsegsData CompdatData) :
  row ∈ (merge_inner left right).*2 <->
  exists l r, l ∈ left /\ r ∈ right
              /\ (cs_I l, cs_J l, cs_K l) = (cd_I r, cd_J r, cd_K r)
              /\ row = merged l r.
Proof.
  unfold merge_inner, range_index. rewrite fmap_imap.
  rewrite (imap_ext _ (fun _ r => r)) by done.
  rewrite (imap_const id), list_fmap_id.
  rewrite list_elem_of_bind. split.
  - intros (l & Hrow & Hl). apply list_elem_of_bind in Hrow as (r & Hrow & Hr).
    apply list_elem_of_filter in Hr as [Hkey Hr].
    apply list_elem_of_singleton in Hrow. exists l, r. repeat split; try done.
    unfold same_ijk in Hkey.
    apply andb_true_iff in Hkey as [[Hi Hj]%andb_true_iff Hk].
    apply bool_decide_eq_true in Hi, Hj, Hk. congruence.
  - intros (l & r & Hl & Hr & [= Hi Hj Hk] & ->). exists l. split; [| done].
    apply list_elem_of_bind. exists r. split; [by apply list_elem_of_singleton |].
    apply list_elem_of_filter. split; [| done].
    unfold same_ijk. by rewrite !bool_decide_eq_true_2.
Qed.

(** ** Further examples *)

Example method_infill :
  _method float_class_str (PyStr "Infill-wells") = Ret WELSEGS.
Proof. reflexivity. Qed.

Example method_int :
  _method float_class_str (PyOther "5")
  = Raise (ValueError (unrecognized_type "5")).
Proof. reflexivity. Qed.

Example active_wells_mixed :
  _active_wells unique
    (gravel_pack_with_packer ++ [ interval "B" 1 0 100 "OA" "PERF";
                                  interval "C" 1 0 100 "GP" "ICD" ]) false
  = Ret (["B"; "C"], false).
Proof. vm_compute. reflexivity. Qed.

Example active_wells_flag :
  _active_wells unique gravel_pack_with_packer true = Ret (["A"], false).
Proof. vm_compute. reflexivity. Qed.

Example active_wells_empty_table :
  _active_wells unique [] false = Ret ([], false).
Proof. reflexivity. Qed.

Example gap_rejected :
  check_group float_class_str invalid_annulus_abort gap_table "A"
  = Raise (SystemExit (incomplete_msg float_class_str "A" (float_of_Z 100) (float_of_Z 150))).
Proof. vm_compute. reflexivity. Qed.

(** * Further properties of the code *)

(** ** [Series.unique] *)


(** ** ActiveWellFilter: the warning and the flag *)

Lemma active_wells_loop_warned (table : completion_table) (flag : bool)
    (todo pre : list string) :
  NoDup (pre ++ todo) ->
  exists warned,
    active_wells_loop table flag todo (pre ++ todo)
    = Ret (pre ++ filter (fun w => deactivated table flag w = false) todo, warned)
    /\ (warned = true <->
         pre ++ filter (fun w => deactivated table flag w = false) todo = []
         /\ todo <> []).
Proof.
  revert pre. induction todo as [|w todo IH]; intros pre Hnd.
  - exists false. rewrite filter_nil. split; [done |]. split; [done | by intros [_ ?]].
  - assert (Hw : w ∉ pre).
    { apply NoDup_app in Hnd as (_ & Hd & _). intros Hin. apply (Hd _ Hin). left. }
    assert (Hnd' : NoDup (pre ++ todo)).
    { apply NoDup_app in Hnd as (H1 & H2 & H3). apply NoDup_cons in H3 as [_ H3].
      apply NoDup_app. repeat split; [done | | done].
      intros x Hx Hx'. apply (H2 x Hx). by right. }
    cbn [active_wells_loop]. fold (deactivated table flag w).
    destruct (deactivated table flag w) eqn:Hdw.
    + rewrite list_remove_middle, bind_Ret by done.
      rewrite filter_cons_False by (rewrite Hdw; done).
      case_bool_decide as Hnil.
      * exists true. apply app_eq_nil in Hnil as [-> ->]. rewrite filter_nil.
        split; [done |]. by split.
      * destruct (IH pre Hnd') as (b & Hb & Hiff). exists b. split; [done |].
        rewrite Hiff. split; [by intros [? _] |].
        intros [Hres _]. split; [done |]. intros ->.
        apply app_eq_nil in Hres as [-> _]. by apply Hnil.
    + rewrite bind_Ret, filter_cons_True by done.
      rewrite bool_decide_eq_false_2 by (by destruct pre).
      rewrite (cons_middle w pre todo), app_assoc in Hnd |- *.
      destruct (IH _ Hnd) as (b & Hb & Hiff). exists b. rewrite Hb, <- !app_assoc.
      split; [done |]. rewrite Hiff, <- app_assoc. simpl.
      split; intros [Hres _]; by destruct pre.
Qed.

(** X1. The warning about no active wells is logged exactly when the
    table has rows and the result is empty; an empty table gives an
    empty result without the warning. *)
Theorem active_wells_warning (list_of_set : list string -> list string)
    (table : completion_table) (flag : bool) (wells : list string) (warned : bool) :
  set_order list_of_set ->
  _active_wells list_of_set table flag = Ret (wells, warned) ->
  (warned = true <-> wells = [] /\ table <> []).
Proof.
  intros Hset Hrun. destruct (Hset (column WELL table)) as [Hnd Hin].
  destruct (active_wells_loop_warned table flag _ [] Hnd) as (b & Hb & Hiff).
  unfold _active_wells in Hrun. simpl in Hb. rewrite Hb in Hrun.
  injection Hrun as <- <-. rewrite Hiff. simpl.
  assert (Hne : list_of_set (column WELL table) <> [] <-> table <> []).
  { split.
    - intros Hl ->. destruct (list_of_set (column WELL [])) as [|x l]; [done |].
      assert (Hx : x ∈ column WELL []) by (apply Hin; left).
      by apply elem_of_nil in Hx.
    - intros Ht Hl. destruct table as [|r table]; [done |].
      assert (Hx : WELL r ∈ list_of_set (column WELL (r :: table))) by (apply Hin; left).
      rewrite Hl in Hx. by apply elem_of_nil in Hx. }
  by rewrite Hne.
Qed.

Lemma active_wells_warning_witness :
  (true = true <-> @nil string = [] /\ gravel_pack_with_packer <> []).
Proof.
  apply (active_wells_warning unique gravel_pack_with_packer false [] true
           unique_set_order).
  vm_compute. reflexivity.
Defined.

(** X2. With the gravel-pack-perforated flag set no well is removed: the
    output is every well of the table, once, and there is no warning. *)
Theorem active_wells_flag_keeps_all (list_of_set : list string -> list string)
    (table : completion_table) :
  set_order list_of_set ->
  _active_wells list_of_set table true
  = Ret (list_of_set (column WELL table), false).
Proof.
  intros Hset. destruct (Hset (column WELL table)) as [Hnd _].
  destruct (active_wells_loop_warned table true _ [] Hnd) as (b & Hb & Hiff).
  unfold _active_wells. simpl in Hb, Hiff. rewrite Hb.
  assert (Hall : forall l : list string,
            filter (fun w => deactivated table true w = false) l = l).
  { intros l. induction l as [|w l IH]; [done |].
    rewrite filter_cons_True; [by rewrite IH |].
    unfold deactivated. by rewrite andb_false_r. }
  rewrite Hall in Hiff |- *. destruct b; [| done].
  destruct (proj1 Hiff eq_refl) as [H1 H2]. done.
Qed.

Lemma active_wells_flag_keeps_all_witness :
  _active_wells unique gravel_pack_with_packer true
  = Ret (unique (column WELL gravel_pack_with_packer), false).
Proof.
  apply (active_wells_flag_keeps_all unique gravel_pack_with_packer unique_set_order).
Defined.

(** ** [_active_laterals] *)


Lemma rows_of_well_absent (table : completion_table) (name : string) :
  name ∉ column WELL table -> rows_of_well name table = [].
Proof.
  unfold rows_of_well, column. induction table as [|r table IH]; [done |].
  rewrite fmap_cons, not_elem_of_cons. intros [Hne Hno].
  rewrite filter_cons_False by (intros Heq; by apply Hne). by apply IH.
Qed.

(** X4. With no well name set, and for a well that has no row in the
    table, [_active_laterals] gives the empty list. *)
Theorem active_laterals_empty (table : completion_table) (well_name : option string) :
  (forall name, well_name = Some name -> name ∉ column WELL table) ->
  _active_laterals table well_name = [].
Proof.
  intros Hno. unfold _active_laterals. destruct well_name as [name|]; [| done].
  by rewrite (rows_of_well_absent table name (Hno name eq_refl)).
Qed.

Lemma active_laterals_empty_witness :
  _active_laterals two_laterals None = []
  /\ _active_laterals two_laterals (Some "C") = [].
Proof.
  split.
  - apply (active_laterals_empty two_laterals None). intros name H. discriminate H.
  - apply (active_laterals_empty two_laterals (Some "C")). intros name [= <-].
    vm_compute. intros H. repeat (apply elem_of_cons in H as [H | H]; [discriminate H |]).
    by apply elem_of_nil in H.
Defined.

(** ** SegmentMethodResolver: letter case *)

Lemma lower_ascii_idemp (c : ascii) : lower_ascii (lower_ascii c) = lower_ascii c.
Proof. by destruct c as [[] [] [] [] [] [] [] []]. Qed.

Lemma lower_idemp (s : string) : lower (lower s) = lower s.
Proof.
  induction s as [|c s IH]; [done |]. simpl. by rewrite lower_ascii_idemp, IH.
Qed.

Section MethodCase.

Variable float_str : float -> string.

(** X5. The keyword tests ignore letter case: two strings that differ
    only in the case of letters give the same method, and one is
    rejected when the other is. *)
Theorem method_ignores_case (s t : string) :
  lower s = lower t ->
  (forall m, _method float_str (PyStr s) = Ret m <-> _method float_str (PyStr t) = Ret m)
  /\ ((exists e, _method float_str (PyStr s) = Raise e)
      <-> (exists e, _method float_str (PyStr t) = Raise e)).
Proof.
  intros Heq. unfold _method. rewrite Heq.
  destruct (str_in "welsegs" (lower t) || str_in "infill" (lower t)); [by split |].
  destruct (str_in "cell" (lower t)); [by split |].
  destruct (str_in "user" (lower t)); [by split |].
  split; [by split |]. split; intros _; by eexists.
Qed.

End MethodCase.

Lemma method_ignores_case_witness :
  (forall m, _method float_class_str (PyStr "WelSegs") = Ret m
             <-> _method float_class_str (PyStr "welsegs") = Ret m)
  /\ ((exists e, _method float_class_str (PyStr "WelSegs") = Raise e)
      <-> (exists e, _method float_class_str (PyStr "welsegs") = Raise e)).
Proof.
  apply (method_ignores_case float_class_str "WelSegs" "welsegs"). reflexivity.
Defined.

(** ** The two default passes *)

Lemma assign_np_where_device {A : Type} (set : A -> completion_row -> completion_row)
    (get : completion_row -> A) (v : A) (df : completion_table) :
  assign set (np_where (eq_str (column DEVICETYPE df) "PERF") v (column get df)) df
  = (fun r => set (if bool_decide (DEVICETYPE r = "PERF") then v else get r) r) <$> df.
Proof.
  unfold assign, np_where, eq_str, column.
  induction df as [|r df IH]; [done |]. cbn. by rewrite <- IH.
Qed.

Lemma set_default_perf_section_rows (df : completion_table) :
  set_default_perf_section df = perf_defaults <$> df.
Proof.
  unfold set_default_perf_section. cbv zeta.
  rewrite !assign_np_where_device, <- !list_fmap_compose.
  apply list_fmap_ext. intros i [w b s e ii oi ro an nv dt dn] _.
  unfold perf_defaults, compose. cbn.
  by case_bool_decide.
Qed.

(** X6. [set_default_perf_section] keeps the number and order of rows; a
    row whose DEVICETYPE is not PERF is unchanged, and a PERF row has
    NVALVEPERJOINT set to 0.0 and DEVICENUMBER to 0, the other columns
    being unchanged. *)
Theorem perf_section_frame (df : completion_table) (i : nat) (r : completion_row) :
  df !! i = Some r ->
  length (set_default_perf_section df) = length df /\
  exists r', set_default_perf_section df !! i = Some r' /\
    (DEVICETYPE r <> "PERF" -> r' = r) /\
    (DEVICETYPE r = "PERF" ->
       r' = mk_completion_row (WELL r) (BRANCH r) (STARTMD r) (ENDMD r) (INNER_ID r)
              (OUTER_ID r) (ROUGHNESS r) (ANNULUS r) f0 (DEVICETYPE r) 0).
Proof.
  intros Hr. rewrite set_default_perf_section_rows, length_fmap. split; [done |].
  exists (perf_defaults r). rewrite list_lookup_fmap, Hr. split; [done |].
  unfold perf_defaults. by case_bool_decide.
Qed.

Lemma perf_section_frame_witness :
  let df := gravel_pack_with_packer in
  let r := interval "A" 1 0 100 "GP" "PERF" in
  length (set_default_perf_section df) = length df /\
  exists r', set_default_perf_section df !! 0%nat = Some r' /\
    (DEVICETYPE r <> "PERF" -> r' = r) /\
    (DEVICETYPE r = "PERF" ->
       r' = mk_completion_row (WELL r) (BRANCH r) (STARTMD r) (ENDMD r) (INNER_ID r)
              (OUTER_ID r) (ROUGHNESS r) (ANNULUS r) f0 (DEVICETYPE r) 0).
Proof.
  intros df r. apply (perf_section_frame df 0 r). reflexivity.
Defined.

(** X7. Both default passes are idempotent: running one of them a second
    time changes nothing. *)
Theorem default_sections_idempotent (df : completion_table) :
  set_default_packer_section (set_default_packer_section df)
  = set_default_packer_section df
  /\ set_default_perf_section (set_default_perf_section df)
     = set_default_perf_section df.
Proof.
  rewrite !set_default_packer_section_rows, !set_default_perf_section_rows.
  rewrite <- !list_fmap_compose. split; apply list_fmap_ext; intros i r _;
    unfold compose, packer_defaults, perf_defaults;
    repeat (case_bool_decide; simpl in *); congruence.
Qed.

(** X8. The two default passes commute: packer defaults then PERF
    defaults give the same table as PERF defaults then packer defaults. *)
Theorem default_sections_commute (df : completion_table) :
  set_default_perf_section (set_default_packer_section df)
  = set_default_packer_section (set_default_perf_section df).
Proof.
  rewrite !set_default_packer_section_rows, !set_default_perf_section_rows.
  rewrite <- !list_fmap_compose. apply list_fmap_ext. intros i r _.
  unfold compose, packer_defaults, perf_defaults.
  repeat (case_bool_decide; simpl in *); congruence.
Qed.

(** X9. After both passes every row that is a packer or a perforation
    has no valves and no device number, and every packer row is a PERF
    row. *)
Theorem default_sections_zero (df : completion_table) (r : completion_row) :
  r ∈ set_default_perf_section (set_default_packer_section df) ->
  (ANNULUS r = "PA" -> DEVICETYPE r = "PERF")
  /\ (DEVICETYPE r = "PERF" -> NVALVEPERJOINT r = f0 /\ DEVICENUMBER r = 0%Z).
Proof.
  rewrite set_default_packer_section_rows, set_default_perf_section_rows.
  rewrite <- list_fmap_compose. intros (r0 & -> & _)%list_elem_of_fmap.
  unfold compose, packer_defaults, perf_defaults.
  repeat (case_bool_decide; simpl in * ); split; try done; congruence.
Qed.

Lemma default_sections_zero_witness :
  let r := mk_completion_row "A" 1 (float_of_Z 100) (float_of_Z 100) f0 f0 f0
             "PA" f0 "PERF" 0 in
  (ANNULUS r = "PA" -> DEVICETYPE r = "PERF")
  /\ (DEVICETYPE r = "PERF" -> NVALVEPERJOINT r = f0 /\ DEVICENUMBER r = 0%Z).
Proof.
  intros r.
  apply (default_sections_zero [interval "A" 1 100 100 "PA" "ICD"] r).
  vm_compute. left.
Defined.

(** ** Validation: groups, bounds and NaN *)


Lemma SFcompare_None (a b : float) :
  SFcompare a b = None <-> is_nan a = true \/ is_nan b = true.
Proof.
  destruct a as [sa|sa| |sa ma ea], b as [sb|sb| |sb mb eb]; simpl;
    try (split; [done | by intros [? | ?]]); try (split; [tauto | done]);
    try (destruct sa; split; [done | by intros [? | ?]]).
Qed.

Lemma feq_of_not_lt (a b : float) :
  is_nan a = false -> is_nan b = false ->
  fgt a b = false -> flt a b = false -> feq a b = true.
Proof.
  unfold fgt, flt, feq, SFltb, SFeqb. intros Ha Hb.
  rewrite (SFcompare_antisym a b).
  destruct (SFcompare a b) as [[]|] eqn:Hc; simpl; try done.
  apply SFcompare_None in Hc as [Hc | Hc]; congruence.
Qed.

Section ValidationMore.

Variable float_str : float -> string.
Variable invalid_annulus : string -> res unit.

Lemma check_group_nil (well : string) :
  check_group float_str invalid_annulus [] well = Ret tt.
Proof. reflexivity. Qed.




(** X12. [_check_for_errors] at an index past the last row raises
    [IndexError]. *)
Theorem check_row_out_of_range (df : completion_table) (well : string) (idx : nat) :
  (length df <= idx)%nat ->
  _check_for_errors float_str invalid_annulus df well idx = Raise IndexError.
Proof.
  intros Hge. unfold _check_for_errors, iloc, column.
  by rewrite !list_lookup_fmap, (lookup_ge_None_2 df idx Hge).
Qed.

(** X13. The length errors come first: a packer whose start differs from
    its end, and an interval that is neither a packer nor an ICV and
    whose start equals its end, are reported as such whatever the rows
    around them. *)
Theorem check_row_length_errors (df : completion_table) (well : string) (idx : nat)
    (r : completion_row) :
  df !! idx = Some r ->
  (ANNULUS r = "PA" -> fne (STARTMD r) (ENDMD r) = true ->
     _check_for_errors float_str invalid_annulus df well idx
     = Raise (SystemExit "Packer segments must not have length"))
  /\ (ANNULUS r <> "PA" -> DEVICETYPE r <> "ICV" -> feq (STARTMD r) (ENDMD r) = true ->
      _check_for_errors float_str invalid_annulus df well idx
      = Raise (SystemExit "Non packer segments must have length")).
Proof.
  intros Hr. unfold _check_for_errors, iloc, column.
  rewrite !list_lookup_fmap, Hr. simpl. split.
  - intros Ha Hne. by rewrite bool_decide_eq_true_2, Hne.
  - intros Ha Hd Heq. rewrite !bool_decide_eq_false_2 by done. by rewrite Heq.
Qed.

(** X14. A row that is not a packer and whose STARTMD is NaN passes the
    length test and the gap and overlap tests: with a valid device type
    and annulus it is accepted at any place in the group. *)
Theorem check_row_nan_start (df : completion_table) (well : string) (idx : nat)
    (r : completion_row) :
  df !! idx = Some r ->
  is_nan (STARTMD r) = true ->
  ANNULUS r ∈ ["GP"; "OA"] ->
  DEVICETYPE r ∈ valid_devices ->
  _check_for_errors float_str invalid_annulus df well idx = Ret tt.
Proof.
  intros Hr Hnan Ha Hd. unfold _check_for_errors, iloc, column, not_in.
  rewrite !list_lookup_fmap, Hr. simpl.
  destruct (STARTMD r) as [| | |] eqn:Hs; try done.
  assert (Hpa : ANNULUS r <> "PA").
  { intros Heq. rewrite Heq in Ha.
    repeat (apply elem_of_cons in Ha as [Ha | Ha]; [discriminate Ha |]).
    by apply elem_of_nil in Ha. }
  rewrite (bool_decide_eq_false_2 (ANNULUS r = "PA")) by done.
  assert (Hfeq : feq S754_nan (ENDMD r) = false) by done.
  rewrite Hfeq, andb_false_r. simpl.
  rewrite (bool_decide_eq_true_2 (DEVICETYPE r ∈ valid_devices)) by done.
  assert (Ha' : ANNULUS r ∈ ["GP"; "OA"; "PA"]).
  { apply elem_of_cons in Ha as [-> | Ha]; [left |].
    apply list_elem_of_singleton in Ha as ->. right; left. }
  rewrite (bool_decide_eq_true_2 _ Ha'). simpl.
  destruct (0 <? idx)%nat eqn:Hidx; [| done].
  destruct (df !! (idx - 1)%nat) as [p|] eqn:Hp; simpl.
  - assert (Hg : fgt S754_nan (ENDMD p) = false) by (unfold fgt, SFltb; by destruct (ENDMD p)).
    by rewrite Hg.
  - apply lookup_ge_None in Hp. apply lookup_lt_Some in Hr. lia.
Qed.

(** X15. In an accepted group every interval but the first starts at a
    depth equal to the end of the interval before it, when neither of
    the two depths is NaN. *)
Theorem check_group_starts_at_previous_end (df : completion_table) (well : string)
    (idx : nat) (r p : completion_row) :
  check_group float_str invalid_annulus df well = Ret tt ->
  (0 < idx)%nat -> df !! idx = Some r -> df !! (idx - 1)%nat = Some p ->
  is_nan (STARTMD r) = false -> is_nan (ENDMD p) = false ->
  feq (STARTMD r) (ENDMD p) = true.
Proof.
  intros Hok Hpos Hr Hp Hnr Hnp. unfold check_group in Hok. rewrite for_each_ok in Hok.
  assert (Hlt : (idx < length df)%nat) by (by eapply lookup_lt_Some).
  assert (Hrow := Hok idx (proj2 (elem_of_seq _ _ _) (conj (Nat.le_0_l _) Hlt))).
  destruct (check_row_accepts float_str invalid_annulus _ _ _ _ Hr Hrow)
    as (_ & Hprev & _).
  destruct (Hprev p Hpos Hp) as [Hg Hl].
  by apply feq_of_not_lt.
Qed.

End ValidationMore.


Lemma check_row_out_of_range_witness :
  _check_for_errors float_class_str invalid_annulus_abort gap_table "A" 2
  = Raise IndexError.
Proof.
  apply (check_row_out_of_range float_class_str invalid_annulus_abort gap_table "A" 2).
  simpl. lia.
Defined.

Lemma check_row_length_errors_witness :
  _check_for_errors float_class_str invalid_annulus_abort (long_packer 100 200) "A" 0
  = Raise (SystemExit "Packer segments must not have length")
  /\ _check_for_errors float_class_str invalid_annulus_abort point_perf "A" 0
     = Raise (SystemExit "Non packer segments must have length").
Proof.
  split.
  - apply (proj1 (check_row_length_errors float_class_str invalid_annulus_abort
                    (long_packer 100 200) "A" 0 (interval "A" 1 100 200 "PA" "PERF")
                    eq_refl)); reflexivity.
  - apply (proj2 (check_row_length_errors float_class_str invalid_annulus_abort
                    point_perf "A" 0 (interval "A" 1 100 100 "OA" "PERF") eq_refl));
      [discriminate | discriminate | reflexivity].
Defined.

Lemma check_row_nan_start_witness :
  _check_for_errors float_class_str invalid_annulus_abort
    [interval "A" 1 0 100 "OA" "PERF"; nan_start_row] "A" 1
  = Ret tt.
Proof.
  apply (check_row_nan_start float_class_str invalid_annulus_abort
           [interval "A" 1 0 100 "OA" "PERF"; nan_start_row] "A" 1 nan_start_row).
  - reflexivity.
  - reflexivity.
  - right. left.
  - left.
Defined.

Lemma check_group_starts_at_previous_end_witness :
  feq (STARTMD (interval "A" 1 100 100 "OA" "ICV"))
      (ENDMD (interval "A" 1 0 100 "OA" "PERF")) = true.
Proof.
  apply (check_group_starts_at_previous_end float_class_str invalid_annulus_abort
           icv_point "A" 1).
  - vm_compute. reflexivity.
  - lia.
  - reflexivity.
  - reflexivity.
  - reflexivity.
  - reflexivity.
Defined.

(** ** WellDataSelector: the reservoir frame *)

Lemma same_float_key_spec (a b : float) :
  same_float_key a b = true <-> float_key a = float_key b.
Proof.
  unfold same_float_key, feq, SFeqb.
  destruct a as [sa|sa| |sa ma ea], b as [sb|sb| |sb mb eb];
    try destruct sa; try destruct sb; simpl;
    try (split; [done | done]);
    try (split; [done | intros [=]]).
  - destruct (Z.compare_spec ea eb) as [-> | Hlt | Hgt]; simpl;
      try (split; [done | intros [= _ Heq]; lia]).
    change (PosDef.Pos.compare_cont Eq ma mb) with (Pos.compare ma mb).
    destruct (Pos.compare_spec ma mb) as [-> | Hlt | Hgt]; simpl;
      split; try done; intros [= Heq]; lia.
  - destruct (Z.compare_spec ea eb) as [-> | Hlt | Hgt]; simpl;
      try (split; [done | intros [= _ Heq]; lia]).
    change (PosDef.Pos.compare_cont Eq ma mb) with (Pos.compare ma mb).
    destruct (Pos.compare_spec ma mb) as [-> | Hlt | Hgt]; simpl;
      split; try done; intros [= Heq]; lia.
Qed.

Lemma range_index_rows {R : Type} (rows : list R) : (range_index rows).*2 = rows.
Proof.
  unfold range_index. rewrite fmap_imap.
  rewrite (imap_ext _ (fun _ r => r)) by done.
  by rewrite (imap_const id), list_fmap_id.
Qed.

Lemma range_index_lookup {R : Type} (rows : list R) (i : nat) :
  range_index rows !! i = (fun r => (i, r)) <$> rows !! i.
Proof. unfold range_index. apply list_lookup_imap. Qed.

Section DropDuplicates.

Context {R K : Type}.
Variable same : K -> K -> bool.
Variable key : R -> K.

Lemma drop_duplicates_last_sublist (df : frame R) :
  drop_duplicates_last same key df `sublist_of` df.
Proof.
  induction df as [|[i r] df IH]; simpl; [done |].
  destruct (existsb _ df); [by apply sublist_cons | by apply sublist_skip].
Qed.

Lemma drop_duplicates_last_elem (df : frame R) (x : nat * R) :
  x ∈ drop_duplicates_last same key df -> x ∈ df.
Proof. intros Hx. eapply elem_of_sublist; [done | apply drop_duplicates_last_sublist]. Qed.

Lemma drop_duplicates_last_distinct (df : frame R) (i j : nat) (a b : nat * R) :
  (i < j)%nat ->
  drop_duplicates_last same key df !! i = Some a ->
  drop_duplicates_last same key df !! j = Some b ->
  same (key a.2) (key b.2) = false.
Proof.
  revert i j. induction df as [|[n r] df IH]; intros i j Hij; simpl; [done |].
  destruct (existsb _ df) eqn:Hex; [by apply IH |].
  destruct i as [|i]; destruct j as [|j]; try lia; simpl.
  - intros [= <-] Hb. simpl.
    assert (Hin : b ∈ df).
    { apply drop_duplicates_last_elem. by eapply list_elem_of_lookup_2. }
    destruct (same (key r) (key b.2)) eqn:Hs; [| done].
    assert (Htrue : existsb (fun '(_, r') => same (key r) (key r')) df = true).
    { apply existsb_exists. exists b. split; [by apply list_elem_of_In |].
      by destruct b. }
    congruence.
  - apply IH. lia.
Qed.

Hypothesis same_refl : forall k, same k k = true.
Hypothesis same_trans :
  forall k1 k2 k3, same k1 k2 = true -> same k2 k3 = true -> same k1 k3 = true.

Lemma drop_duplicates_last_covers (df : frame R) (x : nat * R) :
  x ∈ df ->
  exists y, y ∈ drop_duplicates_last same key df /\ same (key x.2) (key y.2) = true.
Proof.
  revert x. induction df as [|[n r] df IH]; intros x; [by intros ?%elem_of_nil |].
  intros [-> | Hx]%elem_of_cons; simpl.
  - destruct (existsb _ df) eqn:Hex.
    + apply existsb_exists in Hex as ([m r'] & Hin & Hs).
      apply list_elem_of_In in Hin. destruct (IH _ Hin) as (y & Hy & Hsy).
      exists y. split; [done |]. by eapply same_trans.
    + exists (n, r). split; [left | apply same_refl].
  - destruct (IH _ Hx) as (y & Hy & Hs). exists y. split; [| done].
    destruct (existsb _ df); [done | by right].
Qed.

End DropDuplicates.

Lemma drop_duplicates_last_ext {R K1 K2 : Type} (same1 : K1 -> K1 -> bool)
    (same2 : K2 -> K2 -> bool) (key1 : R -> K1) (key2 : R -> K2) (df : frame R) :
  (forall a b, a ∈ df -> b ∈ df ->
     same1 (key1 a.2) (key1 b.2) = same2 (key2 a.2) (key2 b.2)) ->
  drop_duplicates_last same1 key1 df = drop_duplicates_last same2 key2 df.
Proof.
  induction df as [|[n r] df IH]; intros Hsame; simpl; [done |].
  assert (Hex : existsb (fun '(_, r') => same1 (key1 r) (key1 r')) df
                = existsb (fun '(_, r') => same2 (key2 r) (key2 r')) df).
  { assert (Hall : forall y, y ∈ df ->
              same1 (key1 r) (key1 y.2) = same2 (key2 r) (key2 y.2)).
    { intros y Hy. apply (Hsame (n, r) y); [left | by right]. }
    clear IH Hsame. induction df as [|[m r'] df IHdf]; simpl; [done |].
    specialize (Hall (m, r') ltac:(left)) as Hhead. simpl in Hhead.
    rewrite Hhead. f_equal. apply IHdf.
    intros y Hy. apply Hall. by right. }
  rewrite Hex, IH; [done |].
  intros a b Ha Hb. apply Hsame; by right.
Qed.

Section SelectWellMore.

Context {CompsegsData CompdatData WelsegsHeader WelsegsContent Other : Type}.
Variable get_completion : string -> Z -> completion_table.

Lemma select_well_result
    (self self' : @CreateWells CompsegsData CompdatData WelsegsHeader WelsegsContent Other)
    (schedule : @WellSchedule CompsegsData CompdatData WelsegsHeader WelsegsContent)
    (lateral : Z) :
  select_well get_completion self schedule lateral = Ret self' ->
  exists name,
    well_name self = Some name
    /\ well_name self' = Some name
    /\ other self' = other self
    /\ df_completion self' = get_completion name lateral
    /\ df_welsegs_header self' = Some (get_welsegs schedule name lateral).1
    /\ df_welsegs_content self' = Some (get_welsegs schedule name lateral).2
    /\ df_reservoir self'
       = reset_index (drop_duplicates_last same_float_key r_STARTMD
                        (joined_frame schedule name lateral)).
Proof.
  unfold select_well. destruct (well_name self) as [name|]; [| done].
  destruct (get_welsegs schedule name lateral) as [header content] eqn:Hw.
  intros [= <-]. exists name. rewrite Hw. simpl. by repeat split.
Qed.

Lemma joined_frame_rows
    (schedule : @WellSchedule CompsegsData CompdatData WelsegsHeader WelsegsContent)
    (name : string) (lateral : Z) (x : nat * @reservoir_row CompsegsData CompdatData) :
  x ∈ joined_frame schedule name lateral <->
  exists n l r,
    merge_inner (get_compsegs schedule name lateral) (get_compdat schedule name) !! n
    = Some (n, merged l r)
    /\ l ∈ get_compsegs schedule name lateral
    /\ r ∈ get_compdat schedule name
    /\ (cs_I l, cs_J l, cs_K l) = (cd_I r, cd_J r, cd_K r)
    /\ x = (n, mk_reservoir_row (cs_I l) (cs_J l) (cs_K l) (cs_STARTMD l) (cs_ENDMD l)
                  (cs_data l) None (cd_data r)).
Proof.
  unfold joined_frame, drop_WELL. rewrite list_elem_of_fmap. split.
  - intros ([n row] & -> & Hin).
    assert (Hrow : row ∈ (merge_inner (get_compsegs schedule name lateral)
                            (get_compdat schedule name)).*2).
    { apply list_elem_of_fmap. by exists (n, row). }
    apply merge_inner_rows in Hrow as (l & r & Hl & Hr & Hkey & ->).
    apply list_elem_of_lookup in Hin as [pos Hpos].
    assert (Hn : n = pos).
    { unfold merge_inner in Hpos. rewrite range_index_lookup in Hpos.
      destruct (_ !! pos); simpl in Hpos; congruence. }
    subst pos. by exists n, l, r.
  - intros (n & l & r & Hpos & Hl & Hr & Hkey & ->).
    exists (n, merged l r). split; [done |]. by eapply list_elem_of_lookup_2.
Qed.

End SelectWellMore.

Lemma same_float_key_refl (k : float) : same_float_key k k = true.
Proof. by apply same_float_key_spec. Qed.

Lemma same_float_key_trans (k1 k2 k3 : float) :
  same_float_key k1 k2 = true -> same_float_key k2 k3 = true ->
  same_float_key k1 k3 = true.
Proof. rewrite !same_float_key_spec. congruence. Qed.

Lemma range_index_elem {R : Type} (rows : list R) (x : nat * R) :
  x ∈ range_index rows <-> rows !! x.1 = Some x.2.
Proof.
  rewrite list_elem_of_lookup. split.
  - intros [i Hi]. rewrite range_index_lookup in Hi.
    destruct (rows !! i) as [r|] eqn:Hr; simpl in Hi; [| done].
    injection Hi as <-. done.
  - intros Hx. exists x.1. rewrite range_index_lookup, Hx. by destruct x.
Qed.

Section SelectWellFrame.

Context {CompsegsData CompdatData WelsegsHeader WelsegsContent Other : Type}.
Variable get_completion : string -> Z -> completion_table.

(** X16. Every row of [df_reservoir] comes from one COMPSEGS row and one
    COMPDAT row of the well with the same (I, J, K), and has no WELL
    column; a cell without a COMPDAT record has no row. *)
Theorem select_well_rows_from_join
    (self self' : @CreateWells CompsegsData CompdatData WelsegsHeader WelsegsContent Other)
    (schedule : @WellSchedule CompsegsData CompdatData WelsegsHeader WelsegsContent)
    (lateral : Z) (name : string) (new old : nat)
    (row : @reservoir_row CompsegsData CompdatData) :
  select_well get_completion self schedule lateral = Ret self' ->
  well_name self = Some name ->
  (new, (old, row)) ∈ df_reservoir self' ->
  exists l r,
    l ∈ get_compsegs schedule name lateral
    /\ r ∈ get_compdat schedule name
    /\ (cs_I l, cs_J l, cs_K l) = (cd_I r, cd_J r, cd_K r)
    /\ row = mk_reservoir_row (cs_I l) (cs_J l) (cs_K l) (cs_STARTMD l) (cs_ENDMD l)
               (cs_data l) None (cd_data r).
Proof.
  intros Hsel Hname Hin.
  destruct (select_well_result _ _ _ _ _ Hsel) as (name' & Hn & _ & _ & _ & _ & _ & Hres).
  rewrite Hname in Hn. injection Hn as <-.
  rewrite Hres in Hin. unfold reset_index in Hin.
  apply range_index_elem in Hin. simpl in Hin.
  apply list_elem_of_lookup_2, drop_duplicates_last_elem in Hin.
  apply joined_frame_rows in Hin as (n & l & r & _ & Hl & Hr & Hkey & [= _ ->]).
  by exists l, r.
Qed.

(** X17. No two rows of [df_reservoir] have the same STARTMD. *)
Theorem select_well_distinct_depths
    (self self' : @CreateWells CompsegsData CompdatData WelsegsHeader WelsegsContent Other)
    (schedule : @WellSchedule CompsegsData CompdatData WelsegsHeader WelsegsContent)
    (lateral : Z) (i j : nat)
    (a b : nat * (nat * @reservoir_row CompsegsData CompdatData)) :
  select_well get_completion self schedule lateral = Ret self' ->
  (i < j)%nat ->
  df_reservoir self' !! i = Some a ->
  df_reservoir self' !! j = Some b ->
  same_float_key (r_STARTMD a.2.2) (r_STARTMD b.2.2) = false.
Proof.
  intros Hsel Hij Ha Hb.
  destruct (select_well_result _ _ _ _ _ Hsel) as (name & _ & _ & _ & _ & _ & _ & Hres).
  rewrite Hres in Ha, Hb. unfold reset_index in Ha, Hb.
  rewrite range_index_lookup in Ha, Hb.
  destruct (drop_duplicates_last _ _ _ !! i) as [a'|] eqn:Ha'; simpl in Ha; [| done].
  destruct (drop_duplicates_last _ _ _ !! j) as [b'|] eqn:Hb'; simpl in Hb; [| done].
  injection Ha as <-. injection Hb as <-. simpl.
  by eapply (drop_duplicates_last_distinct same_float_key r_STARTMD).
Qed.

(** X18. No depth is lost: for every COMPSEGS row of the well whose cell
    has a COMPDAT record, [df_reservoir] has a row with the STARTMD of
    that row. *)
Theorem select_well_keeps_every_depth
    (self self' : @CreateWells CompsegsData CompdatData WelsegsHeader WelsegsContent Other)
    (schedule : @WellSchedule CompsegsData CompdatData WelsegsHeader WelsegsContent)
    (lateral : Z) (name : string)
    (l : @compsegs_row CompsegsData) (r : @compdat_row CompdatData) :
  select_well get_completion self schedule lateral = Ret self' ->
  well_name self = Some name ->
  l ∈ get_compsegs schedule name lateral ->
  r ∈ get_compdat schedule name ->
  (cs_I l, cs_J l, cs_K l) = (cd_I r, cd_J r, cd_K r) ->
  exists x, x ∈ df_reservoir self'
            /\ same_float_key (cs_STARTMD l) (r_STARTMD x.2.2) = true.
Proof.
  intros Hsel Hname Hl Hr Hkey.
  destruct (select_well_result _ _ _ _ _ Hsel) as (name' & Hn & _ & _ & _ & _ & _ & Hres).
  rewrite Hname in Hn. injection Hn as <-.
  assert (Hrow : merged l r ∈ (merge_inner (get_compsegs schedule name lateral)
                                 (get_compdat schedule name)).*2).
  { apply merge_inner_rows. by exists l, r. }
  apply list_elem_of_fmap in Hrow as ([n row] & Heq & Hin). simpl in Heq. subst row.
  assert (Hj : (n, mk_reservoir_row (cs_I l) (cs_J l) (cs_K l) (cs_STARTMD l)
                     (cs_ENDMD l) (cs_data l) None (cd_data r))
               ∈ joined_frame schedule name lateral).
  { unfold joined_frame, drop_WELL. apply list_elem_of_fmap.
    by exists (n, merged l r). }
  destruct (drop_duplicates_last_covers same_float_key r_STARTMD
              same_float_key_refl same_float_key_trans _ _ Hj) as (y & Hy & Hs).
  apply list_elem_of_lookup in Hy as [pos Hpos].
  exists (pos, y). split; [| done].
  rewrite Hres. unfold reset_index. by apply range_index_elem.
Qed.

(** X19. [select_well] keeps the well name and the attributes it does not
    name, and what it stores does not depend on the tables the object
    held before: a second call with the same schedule and lateral
    returns the same object. *)
Theorem select_well_again
    (self self' : @CreateWells CompsegsData CompdatData WelsegsHeader WelsegsContent Other)
    (schedule : @WellSchedule CompsegsData CompdatData WelsegsHeader WelsegsContent)
    (lateral : Z) :
  select_well get_completion self schedule lateral = Ret self' ->
  well_name self' = well_name self
  /\ other self' = other self
  /\ select_well get_completion self' schedule lateral = Ret self'.
Proof.
  unfold select_well. destruct (well_name self) as [name|]; [| done].
  destruct (get_welsegs schedule name lateral) as [header content] eqn:Hw.
  intros [= <-]. simpl. by rewrite Hw.
Qed.

(** X20. When two COMPSEGS rows of the lateral have the same STARTMD
    exactly when they are rows of the same cell, [df_reservoir] is the
    joined frame with, for every (I, J, K), the last row only. *)
Theorem select_well_last_per_cell
    (self self' : @CreateWells CompsegsData CompdatData WelsegsHeader WelsegsContent Other)
    (schedule : @WellSchedule CompsegsData CompdatData WelsegsHeader WelsegsContent)
    (lateral : Z) (name : string) :
  select_well get_completion self schedule lateral = Ret self' ->
  well_name self = Some name ->
  (forall l1 l2,
     l1 ∈ get_compsegs schedule name lateral ->
     l2 ∈ get_compsegs schedule name lateral ->
     (same_float_key (cs_STARTMD l1) (cs_STARTMD l2) = true
      <-> (cs_I l1, cs_J l1, cs_K l1) = (cs_I l2, cs_J l2, cs_K l2))) ->
  df_reservoir self'
  = reservoir_by_ijk (get_compsegs schedule name lateral) (get_compdat schedule name).
Proof.
  intros Hsel Hname Hdepth.
  destruct (select_well_result _ _ _ _ _ Hsel) as (name' & Hn & _ & _ & _ & _ & _ & Hres).
  rewrite Hname in Hn. injection Hn as <-.
  rewrite Hres. unfold reservoir_by_ijk. fold (joined_frame schedule name lateral).
  f_equal. apply drop_duplicates_last_ext. intros a b Ha Hb.
  apply joined_frame_rows in Ha as (n1 & l1 & r1 & _ & Hl1 & _ & _ & ->).
  apply joined_frame_rows in Hb as (n2 & l2 & r2 & _ & Hl2 & _ & _ & ->).
  simpl. unfold same_ijk_key, ijk. simpl.
  specialize (Hdepth l1 l2 Hl1 Hl2).
  destruct (same_float_key (cs_STARTMD l1) (cs_STARTMD l2)).
  - symmetry. apply bool_decide_eq_true. by apply Hdepth.
  - symmetry. apply bool_decide_eq_false. intros Heq. by apply Hdepth in Heq.
Qed.

End SelectWellFrame.

Lemma select_well_rows_from_join_witness :
  let row := mk_reservoir_row 1 1 1 (float_of_Z 0) (float_of_Z 10) tt None 9%nat in
  exists l r,
    l ∈ get_compsegs compdat_twice "A" 1
    /\ r ∈ get_compdat compdat_twice "A"
    /\ (cs_I l, cs_J l, cs_K l) = (cd_I r, cd_J r, cd_K r)
    /\ row = mk_reservoir_row (cs_I l) (cs_J l) (cs_K l) (cs_STARTMD l) (cs_ENDMD l)
               (cs_data l) None (cd_data r).
Proof.
  intros row.
  eapply (select_well_rows_from_join (fun _ _ => []) engine_compdat_twice _
            compdat_twice 1 "A" 0 1 row).
  - reflexivity.
  - reflexivity.
  - vm_compute. left.
Defined.

Lemma select_well_distinct_depths_witness :
  same_float_key (float_of_Z 0) (float_of_Z 10) = false.
Proof.
  eapply (select_well_distinct_depths (fun _ _ => []) engine_compdat_twice _
            compdat_twice 1 0 1
            (0%nat, (1%nat, mk_reservoir_row 1 1 1 (float_of_Z 0) (float_of_Z 10)
                              tt None 9%nat))
            (1%nat, (2%nat, mk_reservoir_row 1 1 2 (float_of_Z 10) (float_of_Z 20)
                              tt None 8%nat))).
  - reflexivity.
  - lia.
  - reflexivity.
  - reflexivity.
Defined.

Lemma select_well_keeps_every_depth_witness :
  exists self',
    select_well (fun _ _ => []) engine_compdat_twice compdat_twice 1 = Ret self'
    /\ exists x, x ∈ df_reservoir self'
                 /\ same_float_key (float_of_Z 0) (r_STARTMD x.2.2) = true.
Proof.
  eexists. split; [reflexivity |].
  eapply (select_well_keeps_every_depth (fun _ _ => []) engine_compdat_twice _
            compdat_twice 1 "A"
            (mk_compsegs_row 1 1 1 (float_of_Z 0) (float_of_Z 10) tt)
            (mk_compdat_row "A" 1 1 1 7%nat)).
  - reflexivity.
  - reflexivity.
  - left.
  - left.
  - reflexivity.
Defined.

Lemma select_well_again_witness :
  exists self',
    select_well (fun _ _ => []) (engine_on "A") cell_twice 1 = Ret self'
    /\ well_name self' = Some "A"
    /\ other self' = tt
    /\ select_well (fun _ _ => []) self' cell_twice 1 = Ret self'.
Proof.
  eexists. split; [reflexivity |].
  apply (select_well_again (fun _ _ => []) (engine_on "A") _ cell_twice 1).
  reflexivity.
Defined.

Lemma select_well_last_per_cell_witness :
  exists self',
    select_well (fun _ _ => []) engine_compdat_twice compdat_twice 1 = Ret self'
    /\ df_reservoir self'
       = reservoir_by_ijk (get_compsegs compdat_twice "A" 1) (get_compdat compdat_twice "A").
Proof.
  eexists. split; [reflexivity |].
  eapply (select_well_last_per_cell (fun _ _ => []) engine_compdat_twice _
            compdat_twice 1 "A").
  - reflexivity.
  - reflexivity.
  - intros l1 l2 H1 H2. simpl in H1, H2.
    apply elem_of_cons in H1 as [-> | H1]; [| apply list_elem_of_singleton in H1 as ->];
      (apply elem_of_cons in H2 as [-> | H2];
       [| apply list_elem_of_singleton in H2 as ->]);
      vm_compute; split; intros H; try done; discriminate H.
Defined.

(** ** WellDataSelector: order of the rows, and which duplicate stays *)

Section DropDuplicatesLabels.

Context {R K : Type}.
Variable same : K -> K -> bool.
Variable key : R -> K.

Lemma labelled_from_tail (lo : nat) (x : nat * R) (df : frame R) :
  labelled_from lo (x :: df) -> x.1 = lo /\ labelled_from (S lo) df.
Proof.
  intros H. split.
  - rewrite (H 0%nat x eq_refl). lia.
  - intros pos y Hy. rewrite (H (S pos) y Hy). lia.
Qed.

Lemma labelled_from_elem (lo : nat) (df : frame R) (x : nat * R) :
  labelled_from lo df -> x ∈ df -> (lo <= x.1)%nat.
Proof.
  intros H [pos Hpos]%list_elem_of_lookup. rewrite (H pos x Hpos). lia.
Qed.

Lemma drop_duplicates_last_increasing (lo : nat) (df : frame R) (i j : nat)
    (a b : nat * R) :
  labelled_from lo df ->
  (i < j)%nat ->
  drop_duplicates_last same key df !! i = Some a ->
  drop_duplicates_last same key df !! j = Some b ->
  (a.1 < b.1)%nat.
Proof.
  revert lo i j. induction df as [|[n r] df IH]; intros lo i j Hlab Hij; simpl; [done |].
  apply labelled_from_tail in Hlab as [Hn Hlab]. simpl in Hn. subst n.
  destruct (existsb _ df); [by apply (IH (S lo)) |].
  destruct i as [|i]; destruct j as [|j]; try lia; simpl.
  - intros [= <-] Hb. simpl.
    assert (Hin : b ∈ df).
    { apply (drop_duplicates_last_elem same key). by eapply list_elem_of_lookup_2. }
    pose proof (labelled_from_elem _ _ _ Hlab Hin). lia.
  - apply (IH (S lo)); [done | lia].
Qed.

Lemma drop_duplicates_last_is_last (lo : nat) (df : frame R) (x y : nat * R) :
  labelled_from lo df ->
  x ∈ drop_duplicates_last same key df ->
  y ∈ df ->
  (x.1 < y.1)%nat ->
  same (key x.2) (key y.2) = false.
Proof.
  revert lo. induction df as [|[n r] df IH]; intros lo Hlab; simpl;
    [by intros ?%elem_of_nil |].
  apply labelled_from_tail in Hlab as [Hn Hlab]. simpl in Hn. subst n.
  intros Hx Hy Hlt.
  assert (Htail : x ∈ drop_duplicates_last same key df ->
                  same (key x.2) (key y.2) = false).
  { intros Hx'. apply elem_of_cons in Hy as [-> | Hy]; [| by apply (IH (S lo))].
    apply (drop_duplicates_last_elem same key) in Hx'.
    pose proof (labelled_from_elem _ _ _ Hlab Hx'). simpl in Hlt. lia. }
  destruct (existsb _ df) eqn:Hex; [by apply Htail |].
  apply elem_of_cons in Hx as [-> | Hx]; [| by apply Htail].
  simpl in *. apply elem_of_cons in Hy as [-> | Hy]; [simpl in Hlt; lia |].
  destruct (same (key r) (key y.2)) eqn:Hs; [| done].
  assert (Htrue : existsb (fun '(_, r') => same (key r) (key r')) df = true).
  { apply existsb_exists. exists y. split; [by apply list_elem_of_In |].
    by destruct y. }
  congruence.
Qed.

End DropDuplicatesLabels.

Section SelectWellOrder.

Context {CompsegsData CompdatData WelsegsHeader WelsegsContent Other : Type}.
Variable get_completion : string -> Z -> completion_table.

Lemma joined_frame_labelled
    (schedule : @WellSchedule CompsegsData CompdatData WelsegsHeader WelsegsContent)
    (name : string) (lateral : Z) :
  labelled_from 0 (joined_frame schedule name lateral).
Proof.
  intros pos x. unfold joined_frame, drop_WELL, merge_inner.
  rewrite list_lookup_fmap, range_index_lookup.
  destruct (_ !! pos) as [row|]; simpl; [| done]. by intros [= <-].
Qed.

(** X21. The rows of [df_reservoir] keep the order of the joined frame:
    the column [index], which holds the position a row had there,
    increases from row to row. *)
Theorem select_well_keeps_order
    (self self' : @CreateWells CompsegsData CompdatData WelsegsHeader WelsegsContent Other)
    (schedule : @WellSchedule CompsegsData CompdatData WelsegsHeader WelsegsContent)
    (lateral : Z) (i j : nat)
    (a b : nat * (nat * @reservoir_row CompsegsData CompdatData)) :
  select_well get_completion self schedule lateral = Ret self' ->
  (i < j)%nat ->
  df_reservoir self' !! i = Some a ->
  df_reservoir self' !! j = Some b ->
  (a.2.1 < b.2.1)%nat.
Proof.
  intros Hsel Hij Ha Hb.
  destruct (select_well_result _ _ _ _ _ Hsel) as (name & _ & _ & _ & _ & _ & _ & Hres).
  rewrite Hres in Ha, Hb. unfold reset_index in Ha, Hb.
  rewrite range_index_lookup in Ha, Hb.
  destruct (drop_duplicates_last _ _ _ !! i) as [a'|] eqn:Ha'; simpl in Ha; [| done].
  destruct (drop_duplicates_last _ _ _ !! j) as [b'|] eqn:Hb'; simpl in Hb; [| done].
  injection Ha as <-. injection Hb as <-. simpl.
  eapply (drop_duplicates_last_increasing same_float_key r_STARTMD 0);
    [apply joined_frame_labelled | exact Hij | exact Ha' | exact Hb'].
Qed.

(** X22. Of the joined rows with one STARTMD the last stays: a row of
    [df_reservoir] has a STARTMD that no later row of the joined frame
    has. *)
Theorem select_well_keeps_last
    (self self' : @CreateWells CompsegsData CompdatData WelsegsHeader WelsegsContent Other)
    (schedule : @WellSchedule CompsegsData CompdatData WelsegsHeader WelsegsContent)
    (lateral : Z) (name : string) (new old later : nat)
    (row row' : @reservoir_row CompsegsData CompdatData) :
  select_well get_completion self schedule lateral = Ret self' ->
  well_name self = Some name ->
  (new, (old, row)) ∈ df_reservoir self' ->
  (later, row') ∈ joined_frame schedule name lateral ->
  (old < later)%nat ->
  same_float_key (r_STARTMD row) (r_STARTMD row') = false.
Proof.
  intros Hsel Hname Hin Hlater Hlt.
  destruct (select_well_result _ _ _ _ _ Hsel) as (name' & Hn & _ & _ & _ & _ & _ & Hres).
  rewrite Hname in Hn. injection Hn as <-.
  rewrite Hres in Hin. unfold reset_index in Hin.
  apply range_index_elem in Hin. simpl in Hin. apply list_elem_of_lookup_2 in Hin.
  apply (drop_duplicates_last_is_last same_float_key r_STARTMD 0
           (joined_frame schedule name lateral) (old, row) (later, row'));
    [apply joined_frame_labelled | done | done | done].
Qed.

End SelectWellOrder.

Lemma select_well_keeps_order_witness : (1 < 2)%nat.
Proof.
  eapply (select_well_keeps_order (fun _ _ => []) engine_compdat_twice _
            compdat_twice 1 0 1
            (0%nat, (1%nat, mk_reservoir_row 1 1 1 (float_of_Z 0) (float_of_Z 10)
                              tt None 9%nat))
            (1%nat, (2%nat, mk_reservoir_row 1 1 2 (float_of_Z 10) (float_of_Z 20)
                              tt None 8%nat))).
  - reflexivity.
  - lia.
  - reflexivity.
  - reflexivity.
Defined.

Lemma select_well_keeps_last_witness :
  same_float_key (float_of_Z 0) (float_of_Z 10) = false.
Proof.
  eapply (select_well_keeps_last (fun _ _ => []) engine_compdat_twice _
            compdat_twice 1 "A" 0 1 2
            (mk_reservoir_row 1 1 1 (float_of_Z 0) (float_of_Z 10) tt None 9%nat)
            (mk_reservoir_row 1 1 2 (float_of_Z 10) (float_of_Z 20) tt None 8%nat)).
  - reflexivity.
  - reflexivity.
  - vm_compute. left.
  - vm_compute. right. right. left.
  - lia.
Defined.
